(** * Wumpus World environment (wumpus_env.py): model and verified properties

    The environment simulator of [wumpus_env.py] is embedded as pure
    functions over an explicit state record [Env].  Python integers are
    unbounded, hence [Z]; the pit set is a [gset]; the private
    [random.Random] instance is an abstract generator state threaded
    through construction; a raised exception is the left summand of the
    result of [create]. *)

From Stdlib Require Import ZArith QArith Lia.
From stdpp Require Import base decidable countable gmap list.
From stdpp Require Import strings.
From Equations Require Import Equations.
From Equations.Prop Require Import Logic.

Local Open Scope Z_scope.

(** ** Enums: actions and directions *)

Inductive Action := FORWARD | TURN_LEFT | TURN_RIGHT | SHOOT | GRAB | CLIMB.

#[global] Instance Action_eq_dec : EqDecision Action.
Proof. solve_decision. Defined.

Module Direction.
Inductive t := N | E | S | W.

(** [Direction.left]: 90-degree left turn (lookup table of the source). *)
Definition left (d : t) : t :=
  match d with
  | N => W
  | W => S
  | S => E
  | E => N
  end.

(** [Direction.right]: 90-degree right turn. *)
Definition right (d : t) : t :=
  match d with
  | N => E
  | E => S
  | S => W
  | W => N
  end.
End Direction.

(** ** Positions *)

Module Pos.
Record t := mk { x : Z; y : Z }.

#[global] Instance eq_dec : EqDecision t.
Proof. solve_decision. Defined.

#[global] Instance countable : Countable t.
Proof.
  refine (inj_countable' (λ p, (x p, y p)) (λ c, mk c.1 c.2) _).
  by intros [].
Defined.

(** [Pos.neighbors_4]: right, left, up, down, without bounds filtering. *)
Definition neighbors_4 (p : t) : list t :=
  [ mk (x p + 1) (y p);
    mk (x p - 1) (y p);
    mk (x p) (y p + 1);
    mk (x p) (y p - 1) ].
End Pos.

(** The start cell [Pos(1, 1)]. *)
Definition start : Pos.t := Pos.mk 1 1.

(** ** Percepts *)

Record Percept := mkPercept {
  stench : bool;
  breeze : bool;
  glitter : bool;
  bump : bool;
  scream : bool;
  reward : Z
}.

(** ** Exceptions and the random source *)

(** The only exception construction can raise: [random.Random.choice]
    on an empty sequence raises [IndexError]. *)
Inductive Exception := IndexError.

(** Interface of the private [random.Random(seed)] instance.  Only the
    two draws used by the environment are modelled: [_randbelow n]
    (behind [choice]) and [random()], a float in the half-open unit
    interval.  Finite floats are modelled by the rationals they denote:
    the source only ever compares them with [<], never computes with
    them. *)
Class RandomSource (G : Type) := {
  randbelow : nat → G → nat * G;
  random : G → Q * G;
  randbelow_lt : ∀ n g, (0 < n)%nat → ((randbelow n g).1 < n)%nat;
  random_unit : ∀ g, (0 <= (random g).1)%Q ∧ ((random g).1 < 1)%Q
}.

(** [range(lo, hi)] of Python. *)
Definition range (lo hi : Z) : list Z :=
  (λ i : nat, lo + Z.of_nat i) <$> seq 0 (Z.to_nat (hi - lo)).

Section Environment.
Context {G : Type} `{RandomSource G}.

(** [rng.choice(seq)]: [IndexError] on an empty sequence, otherwise
    the element at a drawn index. *)
Definition choice {A : Type} (l : list A) (g : G) : Exception + A * G :=
  match l with
  | [] => inl IndexError
  | _ =>
      let '(i, g') := randbelow (length l) g in
      match l !! i with
      | Some a => inr (a, g')
      | None => inl IndexError
      end
  end.

(** The attributes of a [WumpusWorldEnv] instance. *)
Record Env := mkEnv {
  width : Z;
  height : Z;
  allow_climb_without_gold : bool;
  pit_prob : Q;
  rng : G;
  agent_pos : Pos.t;
  agent_dir : Direction.t;
  gold_pos : Pos.t;
  wumpus_pos : Pos.t;
  wumpus_alive : bool;
  pits : gset Pos.t;
  has_gold : bool;
  arrow_available : bool;
  terminated : bool;
  dead : bool;
  _last_bump : bool;
  _last_scream : bool;
  steps : Z;
  total_reward : Z
}.

(** *** Attribute assignment

    [set_f v s] is the state after [self.f = v]; every other
    attribute is kept. *)

Definition set_agent_pos (v : Pos.t) (s : Env) : Env :=
  mkEnv (width s) (height s) (allow_climb_without_gold s) (pit_prob s)
    (rng s) v (agent_dir s) (gold_pos s) (wumpus_pos s) (wumpus_alive s)
    (pits s) (has_gold s) (arrow_available s) (terminated s) (dead s)
    (_last_bump s) (_last_scream s) (steps s) (total_reward s).

Definition set_agent_dir (v : Direction.t) (s : Env) : Env :=
  mkEnv (width s) (height s) (allow_climb_without_gold s) (pit_prob s)
    (rng s) (agent_pos s) v (gold_pos s) (wumpus_pos s) (wumpus_alive s)
    (pits s) (has_gold s) (arrow_available s) (terminated s) (dead s)
    (_last_bump s) (_last_scream s) (steps s) (total_reward s).

Definition set_wumpus_alive (v : bool) (s : Env) : Env :=
  mkEnv (width s) (height s) (allow_climb_without_gold s) (pit_prob s)
    (rng s) (agent_pos s) (agent_dir s) (gold_pos s) (wumpus_pos s) v
    (pits s) (has_gold s) (arrow_available s) (terminated s) (dead s)
    (_last_bump s) (_last_scream s) (steps s) (total_reward s).

Definition set_has_gold (v : bool) (s : Env) : Env :=
  mkEnv (width s) (height s) (allow_climb_without_gold s) (pit_prob s)
    (rng s) (agent_pos s) (agent_dir s) (gold_pos s) (wumpus_pos s)
    (wumpus_alive s) (pits s) v (arrow_available s) (terminated s) (dead s)
    (_last_bump s) (_last_scream s) (steps s) (total_reward s).

Definition set_arrow_available (v : bool) (s : Env) : Env :=
  mkEnv (width s) (height s) (allow_climb_without_gold s) (pit_prob s)
    (rng s) (agent_pos s) (agent_dir s) (gold_pos s) (wumpus_pos s)
    (wumpus_alive s) (pits s) (has_gold s) v (terminated s) (dead s)
    (_last_bump s) (_last_scream s) (steps s) (total_reward s).

Definition set_terminated (v : bool) (s : Env) : Env :=
  mkEnv (width s) (height s) (allow_climb_without_gold s) (pit_prob s)
    (rng s) (agent_pos s) (agent_dir s) (gold_pos s) (wumpus_pos s)
    (wumpus_alive s) (pits s) (has_gold s) (arrow_available s) v (dead s)
    (_last_bump s) (_last_scream s) (steps s) (total_reward s).

Definition set_dead (v : bool) (s : Env) : Env :=
  mkEnv (width s) (height s) (allow_climb_without_gold s) (pit_prob s)
    (rng s) (agent_pos s) (agent_dir s) (gold_pos s) (wumpus_pos s)
    (wumpus_alive s) (pits s) (has_gold s) (arrow_available s)
    (terminated s) v (_last_bump s) (_last_scream s) (steps s)
    (total_reward s).

Definition set_last_bump (v : bool) (s : Env) : Env :=
  mkEnv (width s) (height s) (allow_climb_without_gold s) (pit_prob s)
    (rng s) (agent_pos s) (agent_dir s) (gold_pos s) (wumpus_pos s)
    (wumpus_alive s) (pits s) (has_gold s) (arrow_available s)
    (terminated s) (dead s) v (_last_scream s) (steps s) (total_reward s).

Definition set_last_scream (v : bool) (s : Env) : Env :=
  mkEnv (width s) (height s) (allow_climb_without_gold s) (pit_prob s)
    (rng s) (agent_pos s) (agent_dir s) (gold_pos s) (wumpus_pos s)
    (wumpus_alive s) (pits s) (has_gold s) (arrow_available s)
    (terminated s) (dead s) (_last_bump s) v (steps s) (total_reward s).

Definition set_steps (v : Z) (s : Env) : Env :=
  mkEnv (width s) (height s) (allow_climb_without_gold s) (pit_prob s)
    (rng s) (agent_pos s) (agent_dir s) (gold_pos s) (wumpus_pos s)
    (wumpus_alive s) (pits s) (has_gold s) (arrow_available s)
    (terminated s) (dead s) (_last_bump s) (_last_scream s) v
    (total_reward s).

Definition set_total_reward (v : Z) (s : Env) : Env :=
  mkEnv (width s) (height s) (allow_climb_without_gold s) (pit_prob s)
    (rng s) (agent_pos s) (agent_dir s) (gold_pos s) (wumpus_pos s)
    (wumpus_alive s) (pits s) (has_gold s) (arrow_available s)
    (terminated s) (dead s) (_last_bump s) (_last_scream s) (steps s) v.

(** *** Internal helpers *)

(** [_in_bounds]. *)
Definition _in_bounds (s : Env) (p : Pos.t) : bool :=
  bool_decide (1 ≤ Pos.x p ≤ width s) && bool_decide (1 ≤ Pos.y p ≤ height s).

(** The list comprehension of [_random_non_start_pos]: [x] is the
    outer loop, [y] the inner one, the start cell is filtered out. *)
Definition non_start_cells (w h : Z) : list Pos.t :=
  xv ← range 1 (w + 1);
  yv ← range 1 (h + 1);
  if bool_decide (xv = 1) && bool_decide (yv = 1) then [] else [Pos.mk xv yv].

(** [_random_non_start_pos], on the dimensions already stored in
    [self]. *)
Definition _random_non_start_pos (w h : Z) (g : G) : Exception + Pos.t * G :=
  choice (non_start_cells w h) g.

(** One iteration of the inner loop of [_place_pits]: the draw is
    made only for a non-start cell ([and] short-circuits). *)
Definition place_pit (prob : Q) (p : Pos.t) (acc : gset Pos.t * G) : gset Pos.t * G :=
  let '(ps, g) := acc in
  if bool_decide (p ≠ start) then
    let '(u, g') := random g in
    if Qlt_le_dec u prob then ({[p]} ∪ ps, g') else (ps, g')
  else (ps, g).

(** [_place_pits]: both loops, threading the pit set and the
    generator. *)
Definition _place_pits (w h : Z) (prob : Q) (acc : gset Pos.t * G) : gset Pos.t * G :=
  foldl (λ acc xv,
           foldl (λ acc yv, place_pit prob (Pos.mk xv yv) acc) acc (range 1 (h + 1)))
        acc (range 1 (w + 1)).

(** [_forward_pos]. *)
Definition _forward_pos (p : Pos.t) (d : Direction.t) : Pos.t :=
  match d with
  | Direction.N => Pos.mk (Pos.x p) (Pos.y p + 1)
  | Direction.S => Pos.mk (Pos.x p) (Pos.y p - 1)
  | Direction.E => Pos.mk (Pos.x p + 1) (Pos.y p)
  | Direction.W => Pos.mk (Pos.x p - 1) (Pos.y p)
  end.

(** *** Construction *)

(** [WumpusWorldEnv.__init__]; [g] is the state of the fresh
    [random.Random(seed)].  The gold is drawn first, then the wumpus,
    then the pits, all from the same generator; an exception raised by
    a draw leaves no environment behind. *)
Definition create (w h : Z) (allow : bool) (prob : Q) (g : G) : Exception + Env :=
  match _random_non_start_pos w h g with
  | inl e => inl e
  | inr (gold, g1) =>
      match _random_non_start_pos w h g1 with
      | inl e => inl e
      | inr (wumpus, g2) =>
          let '(ps, g3) := _place_pits w h prob (∅, g2) in
          inr {| width := w; height := h;
                 allow_climb_without_gold := allow;
                 pit_prob := prob;
                 rng := g3;
                 agent_pos := start;
                 agent_dir := Direction.E;
                 gold_pos := gold;
                 wumpus_pos := wumpus;
                 wumpus_alive := true;
                 pits := ps;
                 has_gold := false;
                 arrow_available := true;
                 terminated := false;
                 dead := false;
                 _last_bump := false;
                 _last_scream := false;
                 steps := 0;
                 total_reward := 0 |}
      end
  end.

(** *** Percept generation *)

(** [_stench_at]: the wumpus cell itself, or an in-bounds neighbour
    equal to it; [wumpus_alive] is not consulted. *)
Definition _stench_at (s : Env) (p : Pos.t) : bool :=
  if bool_decide (p = wumpus_pos s) then true
  else existsb (λ n, bool_decide (n = wumpus_pos s))
               (List.filter (_in_bounds s) (Pos.neighbors_4 p)).

(** [_breeze_at]. *)
Definition _breeze_at (s : Env) (p : Pos.t) : bool :=
  existsb (λ n, bool_decide (n ∈ pits s))
          (List.filter (_in_bounds s) (Pos.neighbors_4 p)).

(** [get_percept]. *)
Definition get_percept (s : Env) (reward_override : Z) : Percept :=
  {| stench := _stench_at s (agent_pos s);
     breeze := _breeze_at s (agent_pos s);
     glitter := bool_decide (agent_pos s = gold_pos s);
     bump := _last_bump s;
     scream := _last_scream s;
     reward := reward_override |}.

(** [is_terminal]. *)
Definition is_terminal (s : Env) : bool := terminated s.

(** *** Shooting *)

(** Number of cells between [p] and the wall the direction [d] points
    at: the quantity that shrinks at every turn of the loop of
    [_shoot_arrow]. *)
Definition room_ahead (s : Env) (d : Direction.t) (p : Pos.t) : nat :=
  match d with
  | Direction.N => Z.to_nat (height s - Pos.y p)
  | Direction.S => Z.to_nat (Pos.y p - 1)
  | Direction.E => Z.to_nat (width s - Pos.x p)
  | Direction.W => Z.to_nat (Pos.x p - 1)
  end.

(** A turn of the loop that stays inside the grid leaves less room
    ahead: the coordinate along [d] moves one cell towards the wall. *)
Lemma room_ahead_forward s d p :
  _in_bounds s (_forward_pos p d) = true →
  (room_ahead s d (_forward_pos p d) < room_ahead s d p)%nat.
Proof.
  unfold _in_bounds. rewrite andb_true_iff, !bool_decide_eq_true.
  destruct d; simpl; lia.
Qed.

(** The [while True] loop of [_shoot_arrow], started at [p]: advance
    one cell, stop with [False] outside the grid, stop with [True] on
    the live wumpus, otherwise go round again. *)
Equations? arrow_flight (s : Env) (p : Pos.t) : bool
  by wf (room_ahead s (agent_dir s) p) lt :=
  arrow_flight s p with inspect (_in_bounds s (_forward_pos p (agent_dir s))) := {
    | exist _ false _ => false
    | exist _ true Hin =>
        if bool_decide (_forward_pos p (agent_dir s) = wumpus_pos s) && wumpus_alive s
        then true
        else arrow_flight s (_forward_pos p (agent_dir s)) }.
Proof. by apply room_ahead_forward. Qed.

(** [_shoot_arrow]. *)
Definition _shoot_arrow (s : Env) : bool := arrow_flight s (agent_pos s).

(** The same loop cut off after [fuel] turns; [None] means the loop
    was still running.  Used to count iterations. *)
Fixpoint arrow_flight_fuel (fuel : nat) (s : Env) (p : Pos.t) : option bool :=
  match fuel with
  | O => None
  | S fuel' =>
      let p' := _forward_pos p (agent_dir s) in
      if negb (_in_bounds s p') then Some false
      else if bool_decide (p' = wumpus_pos s) && wumpus_alive s then Some true
      else arrow_flight_fuel fuel' s p'
  end.

(** *** The transition function *)

(** The action dispatch of [step] (the [if]/[elif] chain). *)
Definition execute_action (action : Action) (s : Env) (reward : Z) : Env * Z :=
  match action with
  | TURN_LEFT => (set_agent_dir (Direction.left (agent_dir s)) s, reward)
  | TURN_RIGHT => (set_agent_dir (Direction.right (agent_dir s)) s, reward)
  | FORWARD =>
      let nxt := _forward_pos (agent_pos s) (agent_dir s) in
      if _in_bounds s nxt then (set_agent_pos nxt s, reward)
      else (set_last_bump true s, reward)
  | GRAB =>
      if bool_decide (agent_pos s = gold_pos s) then (set_has_gold true s, reward)
      else (s, reward)
  | SHOOT =>
      if arrow_available s then
        let s := set_arrow_available false s in
        let reward := reward - 10 in
        if _shoot_arrow s
        then (set_last_scream true (set_wumpus_alive false s), reward)
        else (s, reward)
      else (s, reward)
  | CLIMB =>
      if bool_decide (agent_pos s = start) then
        if allow_climb_without_gold s || has_gold s then
          let reward := if has_gold s then reward + 1000 else reward in
          (set_terminated true s, reward)
        else (s, reward)
      else (s, reward)
  end.

(** The death check of [step]. *)
Definition death_check (s : Env) (reward : Z) : Env * Z :=
  if negb (terminated s) then
    if bool_decide (agent_pos s ∈ pits s) then
      (set_terminated true (set_dead true s), reward - 1000)
    else if bool_decide (agent_pos s = wumpus_pos s) && wumpus_alive s then
      (set_terminated true (set_dead true s), reward - 1000)
    else (s, reward)
  else (s, reward).

(** The bookkeeping at the top of a live [step]: counter and
    transient flags. *)
Definition begin_step (s : Env) : Env :=
  set_last_scream false (set_last_bump false (set_steps (steps s + 1) s)).

(** [step]: the new state and the returned percept. *)
Definition step (action : Action) (s : Env) : Env * Percept :=
  if terminated s then (s, get_percept s 0)
  else
    let s := begin_step s in
    let reward := -1 in
    let '(s, reward) := execute_action action s reward in
    let '(s, reward) := death_check s reward in
    let s := set_total_reward (total_reward s + reward) s in
    (s, get_percept s reward).

(** *** Vocabulary of the properties *)

(** The state after a sequence of [step] calls. *)
Definition run (acts : list Action) (s : Env) : Env :=
  foldl (λ s act, (step act s).1) s acts.

(** A cell can receive a pit only if it is not the start cell and the
    probability is positive; it certainly receives one if it is not
    the start cell and the probability is at least 1. *)
Definition may_pit (prob : Q) (p : Pos.t) : Prop := p ≠ start ∧ (0 < prob)%Q.
Definition must_pit (prob : Q) (p : Pos.t) : Prop := p ≠ start ∧ (1 <= prob)%Q.

(** The wording of the percept rules, written with coordinates and
    without [Pos.neighbors_4] and [_in_bounds], so that the theorems
    about the flags compare the code with it.

    [n] is one of the four orthogonal neighbours of [p]: one cell to
    the east, west, north or south. *)
Definition orthogonal_neighbour (p n : Pos.t) : Prop :=
  (Pos.x n = Pos.x p + 1 ∧ Pos.y n = Pos.y p) ∨
  (Pos.x n = Pos.x p - 1 ∧ Pos.y n = Pos.y p) ∨
  (Pos.x n = Pos.x p ∧ Pos.y n = Pos.y p + 1) ∨
  (Pos.x n = Pos.x p ∧ Pos.y n = Pos.y p - 1).

(** [n] lies inside the grid of [s]. *)
Definition inside_grid (s : Env) (n : Pos.t) : Prop :=
  (1 ≤ Pos.x n ≤ width s) ∧ (1 ≤ Pos.y n ≤ height s).

(** The wording of the stench rule: the wumpus is on [p], or on one of
    the four orthogonal neighbours of [p] and inside the grid. *)
Definition wumpus_here_or_adjacent (s : Env) (p : Pos.t) : Prop :=
  wumpus_pos s = p ∨
  (orthogonal_neighbour p (wumpus_pos s) ∧ inside_grid s (wumpus_pos s)).

(** The wording of the breeze rule: one of the four orthogonal
    neighbours of [p] is inside the grid and holds a pit. *)
Definition pit_adjacent (s : Env) (p : Pos.t) : Prop :=
  ∃ n, orthogonal_neighbour p n ∧ inside_grid s n ∧ n ∈ pits s.

(** The states an environment object can be in: fresh from a
    successful construction, or after any sequence of [step] calls. *)
Inductive reachable : Env → Prop :=
| reachable_create w h allow prob g s :
    create w h allow prob g = inr s → reachable s
| reachable_step act s :
    reachable s → reachable (step act s).1.

(** The invariant carried by every reachable state. *)
Record consistent (s : Env) : Prop := {
  agent_in_bounds : _in_bounds s (agent_pos s) = true;
  start_not_pit : start ∉ pits s;
  wumpus_not_start : wumpus_pos s ≠ start;
  dead_terminated : dead s = true → terminated s = true;
  running_not_in_pit : terminated s = false → agent_pos s ∉ pits s;
  running_not_eaten :
    terminated s = false → agent_pos s = wumpus_pos s → wumpus_alive s = false
}.

End Environment.

Arguments Env G : clear implicits.

(** ** The telemetry row of app.py

    The dictionary [log_step] returns, one field per key. *)
Module LogRow.
Record t := mk {
  step : Z;
  action : string;
  reward : Z;
  score : Z;
  stench : bool;
  breeze : bool;
  glitter : bool;
  bump : bool;
  scream : bool;
  pos_x : Z;
  pos_y : Z;
  dir : string;
  has_gold : bool;
  wumpus_alive : bool;
  arrow_available : bool;
  terminal : bool;
  dead : bool
}.
End LogRow.

(** ** Observers and drivers

    Vocabulary for statements about whole episodes, then the parts of
    the repository around [step]: the debug board, the baseline agent
    and the board rendering and stepping code of [app.py]. *)
Section Observers.
Context {G : Type} `{RandomSource G}.

(** The percepts returned by a sequence of [step] calls, in order. *)
Fixpoint trace (acts : list Action) (s : Env G) : list Percept :=
  match acts with
  | [] => []
  | act :: acts' => (step act s).2 :: trace acts' (step act s).1
  end.

(** The cell [k] moves ahead of [p] in direction [d]. *)
Definition cell_ahead (d : Direction.t) (k : nat) (p : Pos.t) : Pos.t :=
  Nat.iter k (λ q, _forward_pos q d) p.

(** The layout of a world: gold and wumpus on non-start cells of the
    grid, and so is every pit. *)
Record well_placed (s : Env G) : Prop := {
  gold_in_grid : _in_bounds s (gold_pos s) = true;
  gold_not_start : gold_pos s ≠ start;
  wumpus_in_grid : _in_bounds s (wumpus_pos s) = true;
  wumpus_off_start : wumpus_pos s ≠ start;
  pits_in_grid : ∀ p, p ∈ pits s → _in_bounds s p = true ∧ p ≠ start
}.

(** The layout part of a state: what construction fixes. *)
Definition same_layout (s s' : Env G) : Prop :=
  width s' = width s ∧ height s' = height s ∧
  allow_climb_without_gold s' = allow_climb_without_gold s ∧
  pit_prob s' = pit_prob s ∧ rng s' = rng s ∧
  gold_pos s' = gold_pos s ∧ wumpus_pos s' = wumpus_pos s ∧
  pits s' = pits s.

(** How a finished episode looks: the transient flags are clear, and
    the agent either died on a hazard or left from the start cell with
    the right to climb. *)
Definition ended_well (s : Env G) : Prop :=
  terminated s = true →
  _last_bump s = false ∧ _last_scream s = false ∧
  ((dead s = true ∧
    (agent_pos s ∈ pits s ∨
     (agent_pos s = wumpus_pos s ∧ wumpus_alive s = true))) ∨
   (dead s = false ∧ agent_pos s = start ∧
    (allow_climb_without_gold s = true ∨ has_gold s = true))).

(** *** The debug board ([get_debug_board]) *)

(** The exception a dictionary look-up with a missing key raises. *)
Inductive DictError := KeyError.

(** Sequencing of computations that may raise: the first exception
    ends the computation. *)
Definition and_then {E A B : Type} (m : E + A) (k : A → E + B) : E + B :=
  match m with
  | inl e => inl e
  | inr a => k a
  end.

(** A loop that appends one result per element and may raise. *)
Fixpoint map_raise {E A B : Type} (f : A → E + B) (l : list A) : E + list B :=
  match l with
  | [] => inr []
  | a :: l' =>
      and_then (f a) (λ b, and_then (map_raise f l') (λ bs, inr (b :: bs)))
  end.

(** The keys of the dictionary comprehension, in the order they are
    produced: every cell of the grid, the start cell included. *)
Definition grid_cells (w h : Z) : list Pos.t :=
  xv ← range 1 (w + 1);
  yv ← range 1 (h + 1);
  [Pos.mk xv yv].

(** [board[p].add(tag)]: [KeyError] if [p] is not a key. *)
Definition board_add (tag : string) (p : Pos.t) (board : gmap Pos.t (gset string))
  : DictError + gmap Pos.t (gset string) :=
  match board !! p with
  | Some cell => inr (<[p := {[tag]} ∪ cell]> board)
  | None => inl KeyError
  end.

(** [get_debug_board].  Every cell starts with its own empty set; the
    pits are tagged while iterating over the pit set (the order does
    not show in the result), then the gold, the wumpus and the agent. *)
Definition get_debug_board (s : Env G) : DictError + gmap Pos.t (gset string) :=
  let board := foldl (λ b p, <[p := ∅]> b) ∅ (grid_cells (width s) (height s)) in
  and_then
    (foldl (λ acc pit, and_then acc (board_add "P" pit)) (inr board)
           (elements (pits s)))
    (λ board,
       and_then (board_add "G" (gold_pos s) board) (λ board,
       and_then (board_add (if wumpus_alive s then "W" else "w")
                           (wumpus_pos s) board) (λ board,
       board_add "A" (agent_pos s) board))).

(** *** Board rendering ([render_board_html] of app.py) *)

(** [Direction.name] and [Action.name]: the member names of the
    enums. *)
Definition direction_name (d : Direction.t) : string :=
  match d with
  | Direction.N => "N"
  | Direction.E => "E"
  | Direction.S => "S"
  | Direction.W => "W"
  end.

Definition action_name (a : Action) : string :=
  match a with
  | FORWARD => "FORWARD"
  | TURN_LEFT => "TURN_LEFT"
  | TURN_RIGHT => "TURN_RIGHT"
  | SHOOT => "SHOOT"
  | GRAB => "GRAB"
  | CLIMB => "CLIMB"
  end.

(** The dictionary [dir_emoji]. *)
Definition dir_emoji : gmap string string :=
  <["N" := "⬆️"]> (<["E" := "➡️"]> (<["S" := "⬇️"]> (<["W" := "⬅️"]> ∅))).

(** The local function [cell_emoji]; [agent_icon] and [reveal] are the
    variables it closes over. *)
Definition cell_emoji (agent_icon : string) (reveal : bool) (cell_set : gset string)
  : string :=
  if bool_decide ("A" ∈ cell_set) then agent_icon
  else if negb reveal then "⬛"
  else if bool_decide ("P" ∈ cell_set) then "🕳️"
  else if bool_decide ("W" ∈ cell_set) then "👾"
  else if bool_decide ("w" ∈ cell_set) then "💀"
  else if bool_decide ("G" ∈ cell_set) then "✨"
  else "⬜".

(** [range(hi, lo, -1)] of Python. *)
Definition range_down (hi lo : Z) : list Z :=
  (λ i : nat, hi - Z.of_nat i) <$> seq 0 (Z.to_nat (hi - lo)).

(** The table cell built by the f-string. *)
Definition td (emoji : string) : string :=
  "<td style='text-align:center;font-size:28px;width:64px;height:64px;"
  +:+ "border:1px solid rgba(120,120,120,.35); border-radius:12px;"
  +:+ "background: rgba(255,255,255,.03);'>" +:+ emoji +:+ "</td>".

(** One row of the table: the cells of row [yv], west to east. *)
Definition render_row (board : gmap Pos.t (gset string)) (agent_icon : string)
    (reveal : bool) (w yv : Z) : DictError + string :=
  and_then
    (map_raise
       (λ xv, match board !! Pos.mk xv yv with
              | Some cell_set => inr (td (cell_emoji agent_icon reveal cell_set))
              | None => inl KeyError
              end)
       (range 1 (w + 1)))
    (λ cells, inr ("<tr>" +:+ String.concat "" cells +:+ "</tr>")).

(** [render_board_html]: the rows from the top one down. *)
Definition render_board_html (s : Env G) (reveal : bool) : DictError + string :=
  and_then (get_debug_board s) (λ board,
  and_then (match dir_emoji !! direction_name (agent_dir s) with
            | Some arrow => inr arrow
            | None => inl KeyError
            end) (λ arrow,
  let agent_icon := "🤖" +:+ arrow in
  and_then
    (map_raise (render_row board agent_icon reveal (width s))
               (range_down (height s) 0))
    (λ rows_html,
       inr ("<table style='border-collapse:separate;border-spacing:6px;'>"
            +:+ String.concat "" rows_html +:+ "</table>")))).

(** *** The baseline agent and the stepping code of app.py *)

(** [list(Action)]: the members in definition order. *)
Definition actions : list Action :=
  [FORWARD; TURN_LEFT; TURN_RIGHT; SHOOT; GRAB; CLIMB].

(** [NaiveAgent.choose_action]; [g] is the agent's own generator.  The
    percept is ignored. *)
Definition choose_action (g : G) (percept : Percept) : Exception + Action * G :=
  choice actions g.

(** [log_step]. *)
Definition log_step (s : Env G) (action : Action) (percept : Percept) : LogRow.t :=
  {| LogRow.step := steps s;
     LogRow.action := action_name action;
     LogRow.reward := reward percept;
     LogRow.score := total_reward s;
     LogRow.stench := stench percept;
     LogRow.breeze := breeze percept;
     LogRow.glitter := glitter percept;
     LogRow.bump := bump percept;
     LogRow.scream := scream percept;
     LogRow.pos_x := Pos.x (agent_pos s);
     LogRow.pos_y := Pos.y (agent_pos s);
     LogRow.dir := direction_name (agent_dir s);
     LogRow.has_gold := has_gold s;
     LogRow.wumpus_alive := wumpus_alive s;
     LogRow.arrow_available := arrow_available s;
     LogRow.terminal := terminated s;
     LogRow.dead := dead s |}.

(** The entries of [st.session_state] the stepping code reads and
    writes. *)
Record Session := mkSession {
  env : Env G;
  agent : G;
  log : list LogRow.t;
  running : bool
}.

(** The four lines shared by the agent button and the runner: observe,
    let the agent choose, step, append the row built from the
    environment after the step. *)
Definition agent_turn (ss : Session) : Exception + Session :=
  let per := get_percept (env ss) 0 in
  and_then (choose_action (agent ss) per) (λ '(action, g'),
  let '(env', percept) := step action (env ss) in
  inr {| env := env';
         agent := g';
         log := log ss ++ [log_step env' action percept];
         running := running ss |}).

(** The handler of the "Step (Agent)" button. *)
Definition step_agent_button (ss : Session) : Exception + Session :=
  if negb (is_terminal (env ss)) then agent_turn ss else inr ss.

(** One pass of the automatic runner: a turn while the episode runs
    and the step budget lasts, otherwise the runner switches itself
    off.  The pause and the rerun of the script are not modelled. *)
Definition play_tick (max_steps : Z) (ss : Session) : Exception + Session :=
  if running ss then
    if negb (is_terminal (env ss)) && bool_decide (steps (env ss) < max_steps)
    then agent_turn ss
    else inr {| env := env ss; agent := agent ss; log := log ss; running := false |}
  else inr ss.

(** [n] passes of the runner in a row. *)
Fixpoint play (n : nat) (max_steps : Z) (ss : Session) : Exception + Session :=
  match n with
  | O => inr ss
  | S n' => and_then (play_tick max_steps ss) (play n' max_steps)
  end.

(** The log follows the environment: one row per step taken, numbered
    from 1, each carrying the score so far, which is the sum of the
    rewards logged up to it; only the last row can be terminal. *)
Record log_tracks (ss : Session) : Prop := {
  rows_count : Z.of_nat (length (log ss)) = steps (env ss);
  rows_numbered :
    ∀ i row, log ss !! i = Some row → LogRow.step row = Z.of_nat i + 1;
  rows_score :
    ∀ i row, log ss !! i = Some row →
      LogRow.score row = foldr Z.add 0 (LogRow.reward <$> take (S i) (log ss));
  rows_total :
    total_reward (env ss) = foldr Z.add 0 (LogRow.reward <$> log ss);
  rows_terminal :
    ∀ i row, log ss !! i = Some row → LogRow.terminal row = true →
      S i = length (log ss) ∧ terminated (env ss) = true
}.

(** What a board shows: a cell of the grid carries the tags [tags]
    gives it, a position outside the grid is not a key. *)
Definition board_shows (s : Env G) (tags : Pos.t → gset string)
    (board : gmap Pos.t (gset string)) : Prop :=
  ∀ q, board !! q = if _in_bounds s q then Some (tags q) else None.

(** The tags a cell is meant to carry: [A] for the agent, [W] or [w]
    for the live or dead wumpus, [G] for the gold, [P] for a pit. *)
Definition cell_tags (s : Env G) (q : Pos.t) : gset string :=
  (if decide (q = agent_pos s) then {["A"]} else ∅) ∪
  (if decide (q = wumpus_pos s)
   then {[if wumpus_alive s then "W" else "w"]} else ∅) ∪
  (if decide (q = gold_pos s) then {["G"]} else ∅) ∪
  (if decide (q ∈ pits s) then {["P"]} else ∅).

(** Everything the board is indexed with lies inside the grid. *)
Definition all_in_grid (s : Env G) : Prop :=
  (∀ p, p ∈ pits s → _in_bounds s p = true) ∧
  _in_bounds s (gold_pos s) = true ∧
  _in_bounds s (wumpus_pos s) = true ∧
  _in_bounds s (agent_pos s) = true.

End Observers.

Arguments Session G : clear implicits.

(** ** A concrete random source

    A linear congruential generator, used to run the model on concrete
    inputs.  Every general statement below quantifies over all random
    sources. *)
Module Lcg.
Definition next (g : Z) : Z := (g * 1103515245 + 12345) mod 2147483648.

Definition below (n : nat) (g : Z) : nat * Z :=
  (Z.to_nat (g mod Z.of_nat n), next g).

Definition unit (g : Z) : Q * Z := (Qmake (g mod 1000) 1000, next g).

Lemma below_lt n g : (0 < n)%nat → ((below n g).1 < n)%nat.
Proof.
  intros Hn. simpl.
  pose proof (Z.mod_pos_bound g (Z.of_nat n)). lia.
Qed.

Lemma unit_range g : (0 <= (unit g).1)%Q ∧ ((unit g).1 < 1)%Q.
Proof.
  pose proof (Z.mod_pos_bound g 1000).
  unfold unit, Qle, Qlt. simpl. lia.
Qed.

#[global] Instance source : RandomSource Z :=
  {| randbelow := below; random := unit;
     randbelow_lt := below_lt; random_unit := unit_range |}.
End Lcg.

(** ** Basic facts about the helpers *)

Lemma elem_of_range lo hi z : z ∈ range lo hi ↔ lo ≤ z < hi.
Proof.
  unfold range. rewrite list_elem_of_fmap. split.
  - intros (i & -> & Hi). apply elem_of_seq in Hi. lia.
  - intros Hz. exists (Z.to_nat (z - lo)). split; [lia|].
    apply elem_of_seq. lia.
Qed.

Section Properties.
Context {G : Type} `{RandomSource G}.
Implicit Types (s : Env G) (p : Pos.t) (act : Action) (g : G).

Lemma in_bounds_iff s p :
  _in_bounds s p = true ↔ (1 ≤ Pos.x p ≤ width s) ∧ (1 ≤ Pos.y p ≤ height s).
Proof.
  unfold _in_bounds. by rewrite andb_true_iff, !bool_decide_eq_true.
Qed.

Lemma elem_of_non_start_cells w h p :
  p ∈ non_start_cells w h ↔
  (1 ≤ Pos.x p ≤ w) ∧ (1 ≤ Pos.y p ≤ h) ∧ p ≠ start.
Proof.
  unfold non_start_cells. rewrite list_elem_of_bind. split.
  - intros (xv & Hp & Hx). apply list_elem_of_bind in Hp as (yv & Hp & Hy).
    apply elem_of_range in Hx, Hy.
    destruct (bool_decide (xv = 1) && bool_decide (yv = 1)) eqn:Hs.
    + by apply elem_of_nil in Hp.
    + apply list_elem_of_singleton in Hp as ->. simpl.
      split_and!; try lia. intros [= -> ->]. by rewrite !bool_decide_eq_true_2 in Hs.
  - intros (Hx & Hy & Hne). exists (Pos.x p). split; [|apply elem_of_range; lia].
    apply list_elem_of_bind. exists (Pos.y p). split; [|apply elem_of_range; lia].
    destruct (bool_decide (Pos.x p = 1) && bool_decide (Pos.y p = 1)) eqn:Hs.
    + apply andb_true_iff in Hs as [Hx1 Hy1].
      apply bool_decide_eq_true in Hx1, Hy1. destruct Hne.
      destruct p; simpl in *; by subst.
    + destruct p; simpl. apply list_elem_of_singleton. done.
Qed.

(** [choice] fails exactly on the empty sequence. *)
Lemma choice_nil {A} g : choice (@nil A) g = inl IndexError.
Proof. done. Qed.

Lemma choice_cons {A} (l : list A) g :
  l ≠ [] → ∃ a g', choice l g = inr (a, g') ∧ a ∈ l.
Proof.
  intros Hl. unfold choice. destruct l as [|a0 l0]; [done|].
  set (l := a0 :: l0).
  pose proof (randbelow_lt (length l) g ltac:(simpl; lia)) as Hlt.
  destruct (randbelow (length l) g) as [i g'] eqn:Hi. simpl in Hlt.
  destruct (lookup_lt_is_Some_2 l i Hlt) as [a Ha].
  rewrite Ha. exists a, g'. split; [done|]. by eapply list_elem_of_lookup_2.
Qed.

Lemma choice_elem_of {A} (l : list A) g a g' :
  choice l g = inr (a, g') → a ∈ l.
Proof.
  intros Hc. destruct (decide (l = [])) as [->|Hl]; [done|].
  destruct (choice_cons l g Hl) as (a1 & g1 & Hc1 & Ha1). congruence.
Qed.

(** *** Pit placement *)

Lemma place_pit_spec prob p ps g :
  ∃ added : bool,
    (place_pit prob p (ps, g)).1 = (if added then {[p]} ∪ ps else ps) ∧
    (added = true → may_pit prob p) ∧
    (must_pit prob p → added = true).
Proof.
  unfold place_pit, may_pit, must_pit. case_bool_decide as Hp.
  - pose proof (random_unit g) as [Hlo Hhi].
    destruct (random g) as [u g']. simpl in Hlo, Hhi.
    destruct (Qlt_le_dec u prob) as [Hlt|Hge].
    + exists true. split_and!; [done| |done].
      intros _. split; [done|]. by eapply Qle_lt_trans.
    + exists false. split_and!; [done|done|].
      intros [_ Hone]. exfalso.
      apply (Qlt_irrefl u). eapply Qlt_le_trans; [exact Hhi|].
      by eapply Qle_trans.
  - exists false. split_and!; [done|done|]. by intros [? _].
Qed.

Lemma place_row_spec prob xv ys (acc : gset Pos.t * G) q :
  let res := foldl (λ acc yv, place_pit prob (Pos.mk xv yv) acc) acc ys in
  (q ∈ res.1 → q ∈ acc.1 ∨ (may_pit prob q ∧ Pos.x q = xv ∧ Pos.y q ∈ ys)) ∧
  (q ∈ acc.1 ∨ (must_pit prob q ∧ Pos.x q = xv ∧ Pos.y q ∈ ys) → q ∈ res.1).
Proof.
  revert acc. induction ys as [|yv ys IH]; intros [ps g]; cbn [foldl fst].
  - split; [auto|]. intros [?|(_ & _ & Hy)]; [done|]. by apply elem_of_nil in Hy.
  - destruct (place_pit_spec prob (Pos.mk xv yv) ps g) as (added & Hres & Hmay & Hmust).
    destruct (place_pit prob (Pos.mk xv yv) (ps, g)) as [ps' g'] eqn:Hpp.
    cbn [fst] in Hres. specialize (IH (ps', g')). cbn [fst] in IH.
    destruct IH as [IHup IHlow]. split.
    + intros Hq. destruct (IHup Hq) as [Hq'|(? & ? & ?)].
      * subst ps'. destruct added; [|by left].
        apply elem_of_union in Hq' as [Hq'|]; [|by left].
        apply elem_of_singleton in Hq' as ->. right.
        split_and!; [by apply Hmay|done|]. simpl. by left.
      * right. split_and!; [done..|]. by right.
    + intros Hq. apply IHlow. destruct Hq as [Hq|(Hm & Hx & Hy)].
      * left. subst ps'. destruct added; set_solver.
      * apply elem_of_cons in Hy as [Hy|Hy]; [|by right].
        left. assert (q = Pos.mk xv yv) as -> by (destruct q; simpl in *; congruence).
        rewrite (Hmust Hm) in Hres. subst ps'. set_solver.
Qed.

Lemma place_grid_spec prob xs ys (acc : gset Pos.t * G) q :
  let res := foldl (λ acc xv,
               foldl (λ acc yv, place_pit prob (Pos.mk xv yv) acc) acc ys) acc xs in
  (q ∈ res.1 → q ∈ acc.1 ∨ (may_pit prob q ∧ Pos.x q ∈ xs ∧ Pos.y q ∈ ys)) ∧
  (q ∈ acc.1 ∨ (must_pit prob q ∧ Pos.x q ∈ xs ∧ Pos.y q ∈ ys) → q ∈ res.1).
Proof.
  revert acc. induction xs as [|xv xs IH]; intros acc; cbn [foldl fst].
  - split; [auto|]. intros [?|(_ & Hx & _)]; [done|]. by apply elem_of_nil in Hx.
  - pose proof (place_row_spec prob xv ys acc q) as [Rup Rlow]. simpl in Rup, Rlow.
    destruct (IH (foldl (λ acc yv, place_pit prob (Pos.mk xv yv) acc) acc ys))
      as [IHup IHlow].
    split.
    + intros Hq. destruct (IHup Hq) as [Hq'|(? & ? & ?)].
      * destruct (Rup Hq') as [?|(? & ? & ?)]; [by left|].
        right. split_and!; [done| |done]. rewrite elem_of_cons. by left.
      * right. split_and!; [done| |done]. by right.
    + intros Hq. apply IHlow. destruct Hq as [Hq|(Hm & Hx & Hy)].
      * left. apply Rlow. by left.
      * apply elem_of_cons in Hx as [Hx|Hx].
        -- left. apply Rlow. by right.
        -- by right.
Qed.

(** What [_place_pits] can and must put into the pit set. *)
Lemma place_pits_spec w h prob (acc : gset Pos.t * G) q :
  (q ∈ (_place_pits w h prob acc).1 →
     q ∈ acc.1 ∨ (may_pit prob q ∧ q ∈ non_start_cells w h)) ∧
  (q ∈ acc.1 ∨ (must_pit prob q ∧ q ∈ non_start_cells w h) →
     q ∈ (_place_pits w h prob acc).1).
Proof.
  unfold _place_pits.
  pose proof (place_grid_spec prob (range 1 (w + 1)) (range 1 (h + 1)) acc q)
    as [Gup Glow]. simpl in Gup, Glow.
  split.
  - intros Hq. destruct (Gup Hq) as [?|(Hm & Hx & Hy)]; [by left|].
    right. split; [done|]. apply elem_of_range in Hx, Hy.
    apply elem_of_non_start_cells. destruct Hm. split_and!; [lia..|done].
  - intros [Hq|(Hm & Hc)]; apply Glow; [by left|].
    apply elem_of_non_start_cells in Hc as (? & ? & ?).
    right. split_and!; [done|apply elem_of_range; lia..].
Qed.

(** *** Construction *)

(** The list of candidate cells is empty exactly for a grid without
    cells and for the 1x1 grid. *)
Lemma non_start_cells_nil w h :
  non_start_cells w h = [] ↔ w ≤ 0 ∨ h ≤ 0 ∨ (w = 1 ∧ h = 1).
Proof.
  split.
  - intros Hnil.
    destruct (decide (w ≤ 0)) as [|Hw]; [by left|].
    destruct (decide (h ≤ 0)) as [|Hh]; [by right; left|].
    destruct (decide (w = 1)) as [->|Hw1].
    + destruct (decide (h = 1)) as [->|Hh1]; [by right; right|].
      assert (Pos.mk 1 2 ∈ non_start_cells 1 h) as Hin.
      { apply elem_of_non_start_cells. simpl. split_and!; [lia..|done]. }
      rewrite Hnil in Hin. by apply elem_of_nil in Hin.
    + assert (Pos.mk 2 1 ∈ non_start_cells w h) as Hin.
      { apply elem_of_non_start_cells. simpl. split_and!; [lia..|done]. }
      rewrite Hnil in Hin. by apply elem_of_nil in Hin.
  - intros Hdims. apply elem_of_nil_inv. intros p Hp.
    apply elem_of_non_start_cells in Hp as (Hx & Hy & Hne).
    destruct Hdims as [?|[?|[-> ->]]]; [lia..|].
    apply Hne. destruct p; simpl in *. unfold start. f_equal; lia.
Qed.

Lemma create_nil w h allow prob g :
  non_start_cells w h = [] → create w h allow prob g = inl IndexError.
Proof. intros Hnil. unfold create, _random_non_start_pos. by rewrite Hnil. Qed.

(** A successful construction: the fields of the fresh environment. *)
Lemma create_inr w h allow prob g s :
  create w h allow prob g = inr s →
  ∃ g1 g2,
    _random_non_start_pos w h g = inr (gold_pos s, g1) ∧
    _random_non_start_pos w h g1 = inr (wumpus_pos s, g2) ∧
    s = {| width := w; height := h;
           allow_climb_without_gold := allow;
           pit_prob := prob;
           rng := (_place_pits w h prob (∅, g2)).2;
           agent_pos := start;
           agent_dir := Direction.E;
           gold_pos := gold_pos s;
           wumpus_pos := wumpus_pos s;
           wumpus_alive := true;
           pits := (_place_pits w h prob (∅, g2)).1;
           has_gold := false;
           arrow_available := true;
           terminated := false;
           dead := false;
           _last_bump := false;
           _last_scream := false;
           steps := 0;
           total_reward := 0 |}.
Proof.
  unfold create. intros Hc.
  destruct (_random_non_start_pos w h g) as [?|[gold g1]] eqn:Hgold; [done|].
  destruct (_random_non_start_pos w h g1) as [?|[wumpus g2]] eqn:Hwum; [done|].
  destruct (_place_pits w h prob (∅, g2)) as [ps g3] eqn:Hpits.
  injection Hc as Hs. subst s. exists g1, g2. simpl. by rewrite Hwum, Hpits.
Qed.

Lemma create_cons w h allow prob g :
  non_start_cells w h ≠ [] → ∃ s, create w h allow prob g = inr s.
Proof.
  intros Hne. unfold create, _random_non_start_pos.
  destruct (choice_cons (non_start_cells w h) g Hne) as (gold & g1 & -> & _).
  destruct (choice_cons (non_start_cells w h) g1 Hne) as (wumpus & g2 & -> & _).
  destruct (_place_pits w h prob (∅, g2)) as [ps g3]. by eexists.
Qed.

Lemma create_consistent w h allow prob g s :
  create w h allow prob g = inr s → consistent s.
Proof.
  intros Hc. destruct (create_inr _ _ _ _ _ _ Hc) as (g1 & g2 & Hgold & Hwum & Hs).
  apply choice_elem_of, elem_of_non_start_cells in Hgold as (Hgx & Hgy & _).
  apply choice_elem_of, elem_of_non_start_cells in Hwum as (_ & _ & Hwne).
  assert (start ∉ pits s) as Hstart.
  { rewrite Hs. cbn [pits]. intros Hin.
    apply place_pits_spec in Hin as [Hin|[[Hne _] _]]; [|done].
    by apply not_elem_of_empty in Hin. }
  rewrite Hs in Hstart |- *. cbn [pits] in Hstart.
  split; cbn [agent_pos pits wumpus_pos dead terminated wumpus_alive].
  - apply in_bounds_iff. simpl. lia.
  - done.
  - done.
  - done.
  - done.
  - intros _ Heq. by rewrite <- Heq in Hwne.
Qed.

(** *** Unfolding [step] *)

Lemma step_terminated act s :
  terminated s = true → step act s = (s, get_percept s 0).
Proof. intros Ht. unfold step. by rewrite Ht. Qed.

Lemma step_running act s :
  terminated s = false →
  step act s =
    let sr := execute_action act (begin_step s) (-1) in
    let sr' := death_check sr.1 sr.2 in
    let s' := set_total_reward (total_reward sr'.1 + sr'.2) sr'.1 in
    (s', get_percept s' sr'.2).
Proof.
  intros Ht. unfold step. rewrite Ht.
  destruct (execute_action act (begin_step s) (-1)) as [s1 r1]. simpl.
  by destruct (death_check s1 r1) as [s2 r2].
Qed.

(** What the dispatch never touches. *)
Lemma execute_action_frame act s r :
  let s' := (execute_action act s r).1 in
  width s' = width s ∧ height s' = height s ∧
  allow_climb_without_gold s' = allow_climb_without_gold s ∧
  pit_prob s' = pit_prob s ∧ rng s' = rng s ∧
  gold_pos s' = gold_pos s ∧ wumpus_pos s' = wumpus_pos s ∧
  pits s' = pits s ∧ dead s' = dead s ∧
  steps s' = steps s ∧ total_reward s' = total_reward s.
Proof.
  destruct act; simpl; repeat case_match; simpl; done.
Qed.

Lemma execute_action_in_bounds act s r :
  _in_bounds s (agent_pos s) = true →
  _in_bounds (execute_action act s r).1 (agent_pos (execute_action act s r).1) = true.
Proof.
  intros Hin. destruct act; simpl; repeat case_match; simpl; done.
Qed.

(** Only a [FORWARD] that does not bump changes the position. *)
Lemma execute_action_pos act s r :
  agent_pos (execute_action act s r).1 =
    if decide (act = FORWARD) then
      if _in_bounds s (_forward_pos (agent_pos s) (agent_dir s))
      then _forward_pos (agent_pos s) (agent_dir s) else agent_pos s
    else agent_pos s.
Proof.
  destruct act; simpl; repeat case_match; simpl; done.
Qed.

(** The three outcomes of the death check. *)
Lemma death_check_terminated s r :
  terminated s = true → death_check s r = (s, r).
Proof. intros Ht. unfold death_check. by rewrite Ht. Qed.

Lemma death_check_hazard s r :
  terminated s = false →
  agent_pos s ∈ pits s ∨ (agent_pos s = wumpus_pos s ∧ wumpus_alive s = true) →
  death_check s r = (set_terminated true (set_dead true s), r - 1000).
Proof.
  intros Ht Hhaz. unfold death_check. rewrite Ht. simpl.
  case_bool_decide as Hpit; [done|].
  destruct Hhaz as [?|[Hw Ha]]; [done|].
  by rewrite bool_decide_eq_true_2, Ha.
Qed.

Lemma death_check_safe s r :
  terminated s = false →
  agent_pos s ∉ pits s →
  (agent_pos s = wumpus_pos s → wumpus_alive s = false) →
  death_check s r = (s, r).
Proof.
  intros Ht Hpit Hw. unfold death_check. rewrite Ht. simpl.
  rewrite bool_decide_eq_false_2 by done.
  case_bool_decide as Heq; [|done]. by rewrite (Hw Heq).
Qed.

(** In a running consistent state the dispatch never leaves the agent
    on a hazard unless it moved there. *)
Lemma execute_action_alive act s r :
  wumpus_alive (execute_action act s r).1 = true → wumpus_alive s = true.
Proof.
  destruct act; simpl; repeat case_match; simpl; done.
Qed.

Lemma execute_action_terminated act s r :
  terminated s = false →
  terminated (execute_action act s r).1 =
    bool_decide (act = CLIMB) && bool_decide (agent_pos s = start)
    && (allow_climb_without_gold s || has_gold s).
Proof.
  intros Ht. destruct act; simpl; repeat case_match; simpl; try done.
  all: by rewrite ?andb_false_r.
Qed.

Lemma begin_step_consistent s : consistent s → consistent (begin_step s).
Proof. by intros []. Qed.

Lemma step_consistent act s : consistent s → consistent (step act s).1.
Proof.
  intros Hs. destruct (terminated s) eqn:Ht.
  { by rewrite step_terminated. }
  rewrite step_running by done. cbn zeta. cbn [fst].
  apply begin_step_consistent in Hs.
  assert (terminated (begin_step s) = false) as Ht0 by done.
  destruct Hs as [Hin Hsp Hws Hdt Hpit Hwum].
  specialize (Hpit Ht0). specialize (Hwum Ht0).
  pose proof (execute_action_frame act (begin_step s) (-1)) as Hfr.
  pose proof (execute_action_in_bounds act (begin_step s) (-1) Hin) as Hin1.
  destruct (execute_action act (begin_step s) (-1)) as [s1 r1].
  cbn zeta in Hfr. cbn [fst snd] in *.
  destruct Hfr as (Hw & Hh & _ & _ & _ & _ & Hwp & Hp & Hd & _ & _).
  assert (dead s1 = false) as Hd1.
  { rewrite Hd. destruct (dead (begin_step s)); [|done]. by rewrite Hdt in Ht0. }
  assert (∀ v s2, width s2 = width s1 → height s2 = height s1 →
            _in_bounds (set_total_reward v s2) (agent_pos s1) = true) as Hin2.
  { intros v s2 Hw2 Hh2. rewrite <- Hin1. unfold _in_bounds. simpl.
    by rewrite Hw2, Hh2. }
  rewrite <- Hp in Hsp. rewrite <- Hwp in Hws.
  unfold death_check.
  destruct (terminated s1) eqn:Hterm; cbn [negb].
  - split; simpl; [by apply Hin2|done|done|by rewrite Hterm..].
  - case_bool_decide as Hpit1.
    + split; simpl; [by apply Hin2|done..].
    + case_bool_decide as Hw1; simpl.
      * destruct (wumpus_alive s1) eqn:Hal1; simpl.
        -- split; simpl; [by apply Hin2|done..].
        -- split; simpl; [by apply Hin2|done|done|by rewrite Hd1|done..].
      * split; simpl; [by apply Hin2|done|done|by rewrite Hd1|done..].
Qed.

(** Every reachable state is consistent. *)
Lemma reachable_consistent s : reachable s → consistent s.
Proof.
  induction 1 as [w h allow prob g s Hc|act s _ IH].
  - by eapply create_consistent.
  - by apply step_consistent.
Qed.

(** *** The arrow loop *)

(** One turn of the loop of [_shoot_arrow]. *)
Lemma arrow_flight_turn s p :
  arrow_flight s p =
    let p' := _forward_pos p (agent_dir s) in
    if negb (_in_bounds s p') then false
    else if bool_decide (p' = wumpus_pos s) && wumpus_alive s then true
    else arrow_flight s p'.
Proof.
  simp arrow_flight. cbn zeta.
  destruct (inspect (_in_bounds s (_forward_pos p (agent_dir s)))) as [b Hb].
  destruct b; simp arrow_flight; by rewrite Hb.
Qed.

(** The cut-off loop agrees with the loop whenever it answers. *)
Lemma arrow_flight_fuel_sound fuel s p b :
  arrow_flight_fuel fuel s p = Some b → arrow_flight s p = b.
Proof.
  revert p. induction fuel as [|fuel IH]; intros p; [done|].
  rewrite arrow_flight_turn. cbn [arrow_flight_fuel]. cbn zeta.
  destruct (negb _); [congruence|].
  destruct (_ && _); [congruence|]. apply IH.
Qed.

(** The loop answers within [room_ahead + 1] turns, from anywhere. *)
Lemma arrow_flight_fuel_enough fuel s p :
  (room_ahead s (agent_dir s) p < fuel)%nat →
  is_Some (arrow_flight_fuel fuel s p).
Proof.
  revert p. induction fuel as [|fuel IH]; intros p Hlt; [lia|].
  cbn [arrow_flight_fuel]. cbn zeta.
  destruct (_in_bounds s (_forward_pos p (agent_dir s))) eqn:Hin; simpl; [|by eexists].
  destruct (_ && _); [by eexists|]. apply IH.
  pose proof (room_ahead_forward s (agent_dir s) p Hin). lia.
Qed.

Lemma room_ahead_in_bounds s d p :
  _in_bounds s p = true →
  (room_ahead s d p < Z.to_nat (Z.max (width s) (height s)))%nat.
Proof.
  rewrite in_bounds_iff. destruct d; simpl; lia.
Qed.

Lemma reachable_run acts s : reachable s → reachable (run acts s).
Proof.
  revert s. induction acts as [|act acts IH]; intros s Hr; [done|].
  apply IH. by apply reachable_step.
Qed.

(** ** Construction-time behaviour *)

(** C1 (as amended).  Construction validates nothing.  With a
    non-positive width or height it raises [IndexError] (the list of
    candidate cells for the gold is empty) before any environment
    exists.  On a grid with at least two cells it succeeds for every
    [pit_prob], inside the unit interval or not: pits only ever lie
    on non-start cells of the grid and only if the probability is
    positive, and with a probability of 1 or more every non-start
    cell is a pit. *)
Theorem create_misconfigured w h allow prob g :
  (w ≤ 0 ∨ h ≤ 0 → create w h allow prob g = inl IndexError) ∧
  (1 ≤ w → 1 ≤ h → ¬ (w = 1 ∧ h = 1) →
     ∃ s, create w h allow prob g = inr s ∧
          (∀ p, p ∈ pits s → p ∈ non_start_cells w h ∧ (0 < prob)%Q) ∧
          ((1 <= prob)%Q → ∀ p, p ∈ non_start_cells w h → p ∈ pits s)).
Proof.
  split.
  - intros Hdims. apply create_nil, non_start_cells_nil. tauto.
  - intros Hw Hh Hne.
    assert (non_start_cells w h ≠ []) as Hcells.
    { rewrite non_start_cells_nil. lia. }
    destruct (create_cons w h allow prob g Hcells) as [s Hs].
    exists s. split; [done|].
    destruct (create_inr _ _ _ _ _ _ Hs) as (g1 & g2 & _ & _ & ->).
    cbn [pits]. split.
    + intros p Hp. apply place_pits_spec in Hp as [Hp|[[_ Hpos] Hin]]; [|done].
      by apply not_elem_of_empty in Hp.
    + intros Hone p Hp. apply place_pits_spec. right.
      apply elem_of_non_start_cells in Hp as Hp'. destruct Hp' as (_ & _ & Hns).
      by repeat split.
Qed.

(** C9.  A 1x1 grid can never be created: the list of non-start
    cells is empty, the first placement draw raises [IndexError], and
    so does the constructor, whatever the other arguments and the
    state of the generator. *)
Theorem create_1x1_fails allow prob g :
  non_start_cells 1 1 = [] ∧
  _random_non_start_pos 1 1 g = inl IndexError ∧
  create 1 1 allow prob g = inl IndexError.
Proof. done. Qed.

(** ** The terminal latch *)

(** C3.  Once [terminated] is set, [step] returns the current percept
    with reward 0 and the very same state, for every action; hence no
    sequence of further actions changes any attribute, [steps] and
    [total_reward] included, and [terminated] stays set. *)
Theorem terminated_latch act s :
  terminated s = true →
  step act s = (s, get_percept s 0) ∧
  reward (step act s).2 = 0 ∧
  ∀ acts, run acts s = s.
Proof.
  intros Ht. rewrite step_terminated by done. split_and!; [done..|].
  intros acts. induction acts as [|act' acts IH]; [done|].
  unfold run in *. cbn [foldl]. by rewrite step_terminated.
Qed.

(** ** Percepts *)

(** The percept returned by [step] is the percept of the state it
    leaves behind. *)
Lemma step_percept act s :
  (step act s).2 = get_percept (step act s).1 (reward (step act s).2).
Proof.
  destruct (terminated s) eqn:Ht.
  - by rewrite step_terminated.
  - by rewrite step_running.
Qed.

(** [Pos.neighbors_4] lists the four orthogonal neighbours, and
    nothing else. *)
Lemma elem_of_neighbors_4 p n :
  n ∈ Pos.neighbors_4 p ↔ orthogonal_neighbour p n.
Proof.
  destruct p as [px py], n as [nx ny].
  unfold Pos.neighbors_4, orthogonal_neighbour. cbn [Pos.x Pos.y].
  rewrite !elem_of_cons, elem_of_nil. split.
  - intros [Heq|[Heq|[Heq|[Heq|[]]]]]; injection Heq as -> ->; tauto.
  - intros [[-> ->]|[[-> ->]|[[-> ->]|[-> ->]]]]; tauto.
Qed.

Lemma stench_at_iff s p :
  _stench_at s p = true ↔ wumpus_here_or_adjacent s p.
Proof.
  unfold _stench_at, wumpus_here_or_adjacent. case_bool_decide as Hp.
  - split; [by left|done].
  - rewrite existsb_exists. split.
    + intros (n & Hn & Heq). apply filter_In in Hn as [Hn Hin].
      apply bool_decide_eq_true in Heq. subst n. right. split.
      * by apply elem_of_neighbors_4, list_elem_of_In.
      * by apply in_bounds_iff.
    + intros [Heq|[Hn Hin]]; [done|].
      exists (wumpus_pos s). split; [|by apply bool_decide_eq_true].
      apply filter_In. split.
      * by apply list_elem_of_In, elem_of_neighbors_4.
      * by apply in_bounds_iff.
Qed.

(** C7.  In the percept built by [get_percept] (and so in the one
    returned by [step]) the stench flag is set exactly when the wumpus
    is on the agent's cell, or is inside the grid and on one of the
    four cells one step east, west, north or south of the agent's
    cell.  The flag does not read [wumpus_alive]: flipping that
    attribute leaves it unchanged, so a dead wumpus still smells. *)
Theorem stench_by_position act s r :
  (stench (get_percept s r) = true ↔ wumpus_here_or_adjacent s (agent_pos s)) ∧
  (stench (step act s).2 = true ↔
     wumpus_here_or_adjacent (step act s).1 (agent_pos (step act s).1)) ∧
  (∀ alive,
     stench (get_percept (set_wumpus_alive alive s) r) = stench (get_percept s r)).
Proof.
  split_and!.
  - apply stench_at_iff.
  - rewrite step_percept. apply stench_at_iff.
  - done.
Qed.

(** C8.  The glitter flag is set exactly when the agent stands on the
    gold cell, in [get_percept] and in the percept returned by
    [step]; the gold cell never moves and [has_gold] is not read, so
    the flag is still set on the gold cell after the gold was
    grabbed. *)
Theorem glitter_by_position act s r :
  (glitter (get_percept s r) = true ↔ agent_pos s = gold_pos s) ∧
  (glitter (step act s).2 = true ↔ agent_pos (step act s).1 = gold_pos s) ∧
  (∀ held,
     glitter (get_percept (set_has_gold held s) r) = glitter (get_percept s r)).
Proof.
  split_and!.
  - apply bool_decide_eq_true.
  - rewrite step_percept. cbn [get_percept glitter]. rewrite bool_decide_eq_true.
    assert (gold_pos (step act s).1 = gold_pos s) as ->; [|done].
    destruct (terminated s) eqn:Ht.
    + by rewrite step_terminated.
    + rewrite step_running by done. cbn zeta. cbn [fst].
      pose proof (execute_action_frame act (begin_step s) (-1)) as Hfr.
      destruct (execute_action act (begin_step s) (-1)) as [s1 r1].
      cbn zeta in Hfr. cbn [fst snd] in *.
      destruct Hfr as (_ & _ & _ & _ & _ & Hgold & _).
      unfold death_check. repeat case_match; simpl; by rewrite Hgold.
  - done.
Qed.

(** ** Shooting *)

(** C10.  From an in-bounds agent position, in whichever direction
    the agent faces, the loop of [_shoot_arrow] returns within
    [max(width, height)] turns, with the value [_shoot_arrow]
    computes.  The quantity [room_ahead] drops at every turn that
    stays inside the grid. *)
Theorem shoot_arrow_terminates s :
  _in_bounds s (agent_pos s) = true →
  arrow_flight_fuel (Z.to_nat (Z.max (width s) (height s))) s (agent_pos s)
    = Some (_shoot_arrow s) ∧
  (∀ p, _in_bounds s (_forward_pos p (agent_dir s)) = true →
        (room_ahead s (agent_dir s) (_forward_pos p (agent_dir s))
         < room_ahead s (agent_dir s) p)%nat).
Proof.
  intros Hin. split; [|intros p; apply room_ahead_forward].
  destruct (arrow_flight_fuel_enough
              (Z.to_nat (Z.max (width s) (height s))) s (agent_pos s)) as [b Hb].
  { by apply room_ahead_in_bounds. }
  rewrite Hb. f_equal. symmetry. by eapply arrow_flight_fuel_sound.
Qed.

(** ** Steps of a running episode *)

(** In a running consistent state, an action other than [FORWARD]
    leaves the agent where it was, hence off every hazard. *)
Lemma dispatch_safe_unless_forward act s r :
  consistent s → terminated s = false → act ≠ FORWARD →
  let s1 := (execute_action act (begin_step s) r).1 in
  (agent_pos s1 ∉ pits s1) ∧
  (agent_pos s1 = wumpus_pos s1 → wumpus_alive s1 = false).
Proof.
  intros Hs Ht Hact.
  pose proof (execute_action_frame act (begin_step s) r) as Hfr.
  pose proof (execute_action_pos act (begin_step s) r) as Hpos.
  pose proof (execute_action_alive act (begin_step s) r) as Hal.
  cbn zeta in *. destruct (execute_action act (begin_step s) r) as [s1 r1].
  cbn [fst] in *. destruct Hfr as (_ & _ & _ & _ & _ & _ & Hwp & Hp & _).
  rewrite decide_False in Hpos by done.
  rewrite Hpos, Hp, Hwp. cbn [begin_step agent_pos pits wumpus_pos]. split.
  - by apply Hs.
  - intros Heq. destruct (wumpus_alive s1); [|done].
    specialize (Hal eq_refl). simpl in Hal.
    by rewrite (running_not_eaten s Hs Ht Heq) in Hal.
Qed.

(** C2.  Take a running state in which the dispatch of the action
    leaves the agent on a pit, or on the cell of the wumpus while it
    is alive (or both at once).  Whenever the death check runs (the
    dispatch did not end the episode by a climb), it subtracts 1000
    exactly once from the reward the dispatch left, and sets [dead] and
    [terminated].  For [FORWARD], and for every action in a reachable
    state (where only a [FORWARD] can lead onto a hazard), the step
    reward is therefore -1001, the base cost and one penalty, and the
    cumulative score drops by as much. *)
Theorem death_penalty_once act s :
  terminated s = false →
  let s1 := (execute_action act (begin_step s) (-1)).1 in
  let r1 := (execute_action act (begin_step s) (-1)).2 in
  agent_pos s1 ∈ pits s1 ∨ (agent_pos s1 = wumpus_pos s1 ∧ wumpus_alive s1 = true) →
  (terminated s1 = false →
     reward (step act s).2 = r1 - 1000 ∧
     dead (step act s).1 = true ∧
     terminated (step act s).1 = true) ∧
  (act = FORWARD ∨ reachable s →
     reward (step act s).2 = -1001 ∧
     total_reward (step act s).1 = total_reward s - 1001 ∧
     dead (step act s).1 = true ∧
     terminated (step act s).1 = true).
Proof.
  intros Ht s1 r1 Hhaz.
  assert (terminated s1 = false →
          step act s =
            (set_total_reward (total_reward s1 + (r1 - 1000))
               (set_terminated true (set_dead true s1)),
             get_percept
               (set_total_reward (total_reward s1 + (r1 - 1000))
                  (set_terminated true (set_dead true s1))) (r1 - 1000))) as Hstep.
  { intros Ht1. rewrite step_running by done. cbn zeta. fold s1 r1.
    by rewrite (death_check_hazard s1 r1 Ht1 Hhaz). }
  split.
  - intros Ht1. by rewrite (Hstep Ht1).
  - intros Hcase.
    assert (act = FORWARD) as ->.
    { destruct Hcase as [|Hr]; [done|]. apply reachable_consistent in Hr as Hs.
      destruct (decide (act = FORWARD)) as [|Hact]; [done|]. exfalso.
      destruct (dispatch_safe_unless_forward act s (-1) Hs Ht Hact) as [Hpit Hw].
      fold s1 in Hpit, Hw. destruct Hhaz as [?|[Heq Hal]]; [done|].
      by rewrite (Hw Heq) in Hal. }
    assert (terminated s1 = false) as Ht1.
    { subst s1. by rewrite execute_action_terminated. }
    assert (r1 = -1) as Hr1.
    { subst r1. simpl. by destruct (_in_bounds _ _). }
    assert (total_reward s1 = total_reward s) as Htot.
    { subst s1. simpl. by destruct (_in_bounds _ _). }
    rewrite (Hstep Ht1), Hr1. simpl. rewrite Htot.
    split_and!; [done|lia|done..].
Qed.

(** The [CLIMB] branch of the dispatch, with its nested tests
    merged. *)
Lemma execute_climb s r :
  execute_action CLIMB s r =
    if bool_decide (agent_pos s = start)
       && (allow_climb_without_gold s || has_gold s)
    then (set_terminated true s, if has_gold s then r + 1000 else r)
    else (s, r).
Proof. simpl. case_bool_decide; [|done]. by destruct (_ || _). Qed.

(** C4.  In a running reachable state, [CLIMB] ends the episode
    exactly when the agent is on the start cell and climbing is
    allowed without gold or the agent holds the gold; from any other
    cell it never does.  On a successful climb the step reward is -1,
    plus 1000 exactly when the agent holds the gold (999 in total,
    in either climbing mode), and [dead] stays unset. *)
Theorem climb_outcome s :
  reachable s → terminated s = false →
  (terminated (step CLIMB s).1 = true ↔
     agent_pos s = start ∧
     (allow_climb_without_gold s = true ∨ has_gold s = true)) ∧
  (agent_pos s ≠ start → terminated (step CLIMB s).1 = false) ∧
  (terminated (step CLIMB s).1 = true →
     reward (step CLIMB s).2 = -1 + (if has_gold s then 1000 else 0) ∧
     dead (step CLIMB s).1 = false).
Proof.
  intros Hr Ht. apply reachable_consistent in Hr as Hs.
  assert (dead s = false) as Hd.
  { destruct (dead s) eqn:Hd; [|done]. by rewrite (dead_terminated s Hs Hd) in Ht. }
  destruct (dispatch_safe_unless_forward CLIMB s (-1) Hs Ht ltac:(done)) as [Hpit Hw].
  rewrite step_running by done. cbn zeta.
  revert Hpit Hw. rewrite execute_climb.
  change (agent_pos (begin_step s)) with (agent_pos s).
  change (allow_climb_without_gold (begin_step s)) with (allow_climb_without_gold s).
  change (has_gold (begin_step s)) with (has_gold s).
  destruct (bool_decide (agent_pos s = start)
            && (allow_climb_without_gold s || has_gold s)) eqn:Hclimb.
  - intros _ _. rewrite death_check_terminated by done. cbn.
    apply andb_true_iff in Hclimb as [Hstart Hallow].
    apply bool_decide_eq_true in Hstart. apply orb_true_iff in Hallow.
    split_and!; [done..|].
    intros _. split; [|done]. destruct (has_gold s); lia.
  - intros Hpit Hw. cbn [fst snd]. rewrite death_check_safe by done. cbn.
    rewrite Ht. split_and!; [|done..]. split; [done|].
    intros [Hstart Hallow]. apply andb_false_iff in Hclimb as [Hc|Hc].
    + by apply bool_decide_eq_false in Hc.
    + apply orb_false_iff in Hc as [Ha Hg]. rewrite Ha, Hg in Hallow.
      by destruct Hallow.
Qed.



(** C6.  In a running reachable state without an arrow, [SHOOT] is
    the plain bookkeeping step: the dispatch changes nothing and adds
    no surcharge, the reward is -1, no scream is emitted, and the new
    state differs from the old one only in [steps] (one more),
    [total_reward] (one less) and the two cleared transient flags. *)
Theorem shoot_without_arrow s :
  reachable s → terminated s = false → arrow_available s = false →
  execute_action SHOOT (begin_step s) (-1) = (begin_step s, -1) ∧
  (step SHOOT s).1 =
    {| width := width s; height := height s;
       allow_climb_without_gold := allow_climb_without_gold s;
       pit_prob := pit_prob s;
       rng := rng s;
       agent_pos := agent_pos s;
       agent_dir := agent_dir s;
       gold_pos := gold_pos s;
       wumpus_pos := wumpus_pos s;
       wumpus_alive := wumpus_alive s;
       pits := pits s;
       has_gold := has_gold s;
       arrow_available := false;
       terminated := false;
       dead := dead s;
       _last_bump := false;
       _last_scream := false;
       steps := steps s + 1;
       total_reward := total_reward s - 1 |} ∧
  reward (step SHOOT s).2 = -1 ∧
  scream (step SHOOT s).2 = false.
Proof.
  intros Hr Ht Harrow. apply reachable_consistent in Hr as Hs.
  assert (execute_action SHOOT (begin_step s) (-1) = (begin_step s, -1)) as Hexec.
  { cbn [execute_action]. change (arrow_available (begin_step s)) with (arrow_available s).
    by rewrite Harrow. }
  split; [done|].
  rewrite step_running by done. cbn zeta. rewrite Hexec. cbn [fst snd].
  rewrite death_check_safe; [|done|by apply Hs..].
  cbn. split; [|done].
  unfold set_total_reward, begin_step, set_last_scream, set_last_bump, set_steps.
  cbn. by rewrite Ht, Harrow.
Qed.

End Properties.

(** ** Further properties of the environment *)
Section Episode.
Context {G : Type} `{RandomSource G}.
Implicit Types (s : Env G) (p q : Pos.t) (act : Action) (g : G) (d : Direction.t).
Implicit Types (ss : Session G).

(** *** Directions and positions *)

(** X1.  The two turn tables are inverse to each other, four equal
    turns come back to the heading, two left turns are two right
    turns, and a single turn always changes the heading. *)
Theorem turns_cancel d :
  Direction.right (Direction.left d) = d ∧
  Direction.left (Direction.right d) = d ∧
  Direction.left (Direction.left (Direction.left (Direction.left d))) = d ∧
  Direction.left (Direction.left d) = Direction.right (Direction.right d) ∧
  Direction.left d ≠ d ∧ Direction.right d ≠ d.
Proof. by destruct d. Qed.

(** X2.  [neighbors_4] lists exactly the positions at Manhattan
    distance 1, each once; so being a neighbour is symmetric and no
    position is its own neighbour. *)
Theorem neighbors_4_distance p q :
  (q ∈ Pos.neighbors_4 p ↔
     Z.abs (Pos.x q - Pos.x p) + Z.abs (Pos.y q - Pos.y p) = 1) ∧
  (q ∈ Pos.neighbors_4 p ↔ p ∈ Pos.neighbors_4 q) ∧
  NoDup (Pos.neighbors_4 p).
Proof.
  assert (∀ a b, b ∈ Pos.neighbors_4 a ↔
            Z.abs (Pos.x b - Pos.x a) + Z.abs (Pos.y b - Pos.y a) = 1) as Hdist.
  { intros [ax ay] [bx by_]. unfold Pos.neighbors_4. cbn [Pos.x Pos.y].
    rewrite !elem_of_cons, elem_of_nil. split.
    - intros [Heq|[Heq|[Heq|[Heq|[]]]]]; injection Heq as -> ->; lia.
    - intros Hd.
      assert ((bx = ax + 1 ∧ by_ = ay) ∨ (bx = ax - 1 ∧ by_ = ay) ∨
              (bx = ax ∧ by_ = ay + 1) ∨ (bx = ax ∧ by_ = ay - 1)) as Hc by lia.
      destruct Hc as [[-> ->]|[[-> ->]|[[-> ->]|[-> ->]]]]; auto. }
  split_and!.
  - apply Hdist.
  - rewrite !Hdist. lia.
  - destruct p as [px py]. unfold Pos.neighbors_4. cbn [Pos.x Pos.y].
    repeat (apply NoDup_cons; split;
            [rewrite ?elem_of_cons, elem_of_nil; intros Hin;
             repeat (destruct Hin as [Hin|Hin]; [injection Hin; lia|]); done|]).
    apply NoDup_nil_2.
Qed.

(** X3.  The cell ahead is one of the four neighbours, different
    headings lead to different cells, and a step ahead followed by a
    step in the opposite heading comes back. *)
Theorem forward_pos_neighbour p d :
  _forward_pos p d ∈ Pos.neighbors_4 p ∧
  (∀ d', _forward_pos p d = _forward_pos p d' → d = d') ∧
  _forward_pos (_forward_pos p d) (Direction.left (Direction.left d)) = p.
Proof.
  destruct p as [px py]. split_and!.
  - unfold Pos.neighbors_4. destruct d; cbn; rewrite !elem_of_cons; auto.
  - intros d' Heq. destruct d, d'; cbn in Heq; try done; injection Heq; lia.
  - destruct d; cbn; f_equal; lia.
Qed.


(** *** Percepts: breeze *)

Lemma breeze_at_iff s p :
  _breeze_at s p = true ↔ pit_adjacent s p.
Proof.
  unfold _breeze_at, pit_adjacent. rewrite existsb_exists. split.
  - intros (n & Hn & Hpit). apply filter_In in Hn as [Hn Hin].
    apply bool_decide_eq_true in Hpit. exists n. split_and!; [|by apply in_bounds_iff|done].
    by apply elem_of_neighbors_4, list_elem_of_In.
  - intros (n & Hn & Hin & Hpit). exists n.
    split; [|by apply bool_decide_eq_true].
    apply filter_In. split; [|by apply in_bounds_iff].
    by apply list_elem_of_In, elem_of_neighbors_4.
Qed.

(** X4.  The breeze flag, in [get_percept] and in the percept returned
    by [step], is set exactly when one of the four cells one step
    east, west, north or south of the agent's cell lies inside the
    grid and holds a pit.  The agent's own cell is not looked at: if
    none of those four cells is a pit of the grid the flag is unset,
    also when the agent stands on a pit. *)
Theorem breeze_by_adjacent_pit act s r :
  (breeze (get_percept s r) = true ↔ pit_adjacent s (agent_pos s)) ∧
  (breeze (step act s).2 = true ↔
     pit_adjacent (step act s).1 (agent_pos (step act s).1)) ∧
  ((∀ n, orthogonal_neighbour (agent_pos s) n → inside_grid s n → n ∉ pits s) →
     breeze (get_percept s r) = false).
Proof.
  split_and!.
  - apply breeze_at_iff.
  - rewrite step_percept. apply breeze_at_iff.
  - intros Hnone. apply not_true_is_false. intros Hbreeze.
    apply breeze_at_iff in Hbreeze as (n & Hn & Hin & Hpit).
    by apply (Hnone n).
Qed.

(** *** What a step keeps *)

Lemma death_check_frame s r :
  let s' := (death_check s r).1 in
  width s' = width s ∧ height s' = height s ∧
  allow_climb_without_gold s' = allow_climb_without_gold s ∧
  pit_prob s' = pit_prob s ∧ rng s' = rng s ∧
  gold_pos s' = gold_pos s ∧ wumpus_pos s' = wumpus_pos s ∧
  pits s' = pits s ∧
  agent_pos s' = agent_pos s ∧ agent_dir s' = agent_dir s ∧
  wumpus_alive s' = wumpus_alive s ∧ has_gold s' = has_gold s ∧
  arrow_available s' = arrow_available s ∧
  _last_bump s' = _last_bump s ∧ _last_scream s' = _last_scream s ∧
  steps s' = steps s ∧ total_reward s' = total_reward s.
Proof. unfold death_check. by repeat case_match. Qed.

Lemma step_same_layout act s : same_layout s (step act s).1.
Proof.
  unfold same_layout. destruct (terminated s) eqn:Ht.
  { by rewrite step_terminated. }
  rewrite step_running by done. cbn zeta. cbn [fst].
  pose proof (execute_action_frame act (begin_step s) (-1)) as Hex.
  pose proof (death_check_frame (execute_action act (begin_step s) (-1)).1
                (execute_action act (begin_step s) (-1)).2) as Hdc.
  cbn zeta in Hex, Hdc.
  destruct Hex as (Hw & Hh & Ha & Hpp & Hg & Hgo & Hwu & Hpi & _).
  destruct Hdc as (Hw' & Hh' & Ha' & Hpp' & Hg' & Hgo' & Hwu' & Hpi' & _).
  cbn [width height allow_climb_without_gold pit_prob rng gold_pos wumpus_pos
       pits set_total_reward].
  rewrite Hw', Hh', Ha', Hpp', Hg', Hgo', Hwu', Hpi'.
  by rewrite Hw, Hh, Ha, Hpp, Hg, Hgo, Hwu, Hpi.
Qed.

Lemma run_same_layout acts s : same_layout s (run acts s).
Proof.
  revert s. induction acts as [|act acts IH]; intros s; [done|].
  unfold run. cbn [foldl]. fold (run acts (step act s).1).
  pose proof (step_same_layout act s) as (? & ? & ? & ? & ? & ? & ? & ?).
  pose proof (IH (step act s).1) as (? & ? & ? & ? & ? & ? & ? & ?).
  unfold same_layout. split_and!; congruence.
Qed.

(** X5.  No sequence of steps, from any state, changes the grid
    dimensions, the climbing mode, the pit probability, the position of
    the gold, of the wumpus or of any pit, or the state of the random
    generator: the world is laid out once, at construction. *)
Theorem layout_fixed acts s :
  width (run acts s) = width s ∧ height (run acts s) = height s ∧
  allow_climb_without_gold (run acts s) = allow_climb_without_gold s ∧
  pit_prob (run acts s) = pit_prob s ∧ rng (run acts s) = rng s ∧
  gold_pos (run acts s) = gold_pos s ∧ wumpus_pos (run acts s) = wumpus_pos s ∧
  pits (run acts s) = pits s.
Proof. apply run_same_layout. Qed.


(** *** The layout of reachable worlds *)

Lemma well_placed_same_layout s s' :
  same_layout s s' → well_placed s → well_placed s'.
Proof.
  intros (Hw & Hh & _ & _ & _ & Hg & Hwu & Hp) [? ? ? ? Hpits].
  assert (∀ p, _in_bounds s' p = _in_bounds s p) as Hin.
  { intros p. unfold _in_bounds. by rewrite Hw, Hh. }
  split; rewrite ?Hin, ?Hg, ?Hwu, ?Hp; try done.
  intros p Hp'. rewrite Hin. by apply Hpits.
Qed.

Lemma create_well_placed w h allow prob g s :
  create w h allow prob g = inr s → well_placed s.
Proof.
  intros Hc. destruct (create_inr _ _ _ _ _ _ Hc) as (g1 & g2 & Hgold & Hwum & Hs).
  apply choice_elem_of, elem_of_non_start_cells in Hgold as (Hgx & Hgy & Hgne).
  apply choice_elem_of, elem_of_non_start_cells in Hwum as (Hwx & Hwy & Hwne).
  assert (width s = w ∧ height s = h ∧
          pits s = (_place_pits w h prob (∅, g2)).1) as (Hw & Hh & Hp).
  { by rewrite Hs. }
  split; rewrite ?in_bounds_iff, ?Hw, ?Hh; try done.
  intros p Hin. rewrite Hp in Hin.
  apply place_pits_spec in Hin as [Hin|[_ Hin]].
  { by apply not_elem_of_empty in Hin. }
  apply elem_of_non_start_cells in Hin as (? & ? & ?).
  by rewrite in_bounds_iff, Hw, Hh.
Qed.

Lemma reachable_well_placed s : reachable s → well_placed s.
Proof.
  induction 1 as [w h allow prob g s Hc|act s _ IH].
  - by eapply create_well_placed.
  - eapply well_placed_same_layout; [apply step_same_layout|done].
Qed.

(** X6.  In every reachable state the gold and the wumpus are on
    cells of the grid other than the start cell, and so is every pit;
    the grid therefore has at least two cells. *)
Theorem reachable_layout s :
  reachable s →
  (_in_bounds s (gold_pos s) = true ∧ gold_pos s ≠ start) ∧
  (_in_bounds s (wumpus_pos s) = true ∧ wumpus_pos s ≠ start) ∧
  (∀ p, p ∈ pits s → _in_bounds s p = true ∧ p ≠ start) ∧
  1 ≤ width s ∧ 1 ≤ height s ∧ 2 ≤ width s * height s.
Proof.
  intros Hr. destruct (reachable_well_placed s Hr) as [Hg Hgs Hw Hws Hp].
  split_and!; try done.
  all: apply in_bounds_iff in Hg as [Hx Hy].
  all: destruct (gold_pos s) as [gx gy]; cbn [Pos.x Pos.y] in *.
  1,2: lia.
  assert (gx ≠ 1 ∨ gy ≠ 1) as Hne.
  { destruct (decide (gx = 1)) as [->|]; [|by left].
    right. intros ->. by apply Hgs. }
  nia.
Qed.

(** *** Flags that never go back *)

Lemma execute_action_monotone act s r :
  let s' := (execute_action act s r).1 in
  (has_gold s = true → has_gold s' = true) ∧
  (arrow_available s = false → arrow_available s' = false) ∧
  (wumpus_alive s = false → wumpus_alive s' = false) ∧
  (terminated s = true → terminated s' = true).
Proof.
  destruct act; simpl; repeat case_match; simpl; split_and!; congruence.
Qed.

Lemma step_monotone act s :
  (has_gold s = true → has_gold (step act s).1 = true) ∧
  (arrow_available s = false → arrow_available (step act s).1 = false) ∧
  (wumpus_alive s = false → wumpus_alive (step act s).1 = false) ∧
  (dead s = true → dead (step act s).1 = true) ∧
  (terminated s = true → terminated (step act s).1 = true).
Proof.
  destruct (terminated s) eqn:Ht.
  { by rewrite step_terminated. }
  rewrite step_running by done. cbn zeta. cbn [fst].
  pose proof (execute_action_monotone act (begin_step s) (-1)) as Hex.
  pose proof (execute_action_frame act (begin_step s) (-1)) as Hfr.
  pose proof (death_check_frame (execute_action act (begin_step s) (-1)).1
                (execute_action act (begin_step s) (-1)).2) as Hdc.
  cbn zeta in Hex, Hfr, Hdc.
  destruct Hex as (Hgold & Harrow & Halive & _).
  destruct Hfr as (_ & _ & _ & _ & _ & _ & _ & _ & Hdead & _).
  destruct Hdc as (_ & _ & _ & _ & _ & _ & _ & _ & _ & _ & Ha' & Hg' & Hr' & _).
  cbn [has_gold arrow_available wumpus_alive dead terminated set_total_reward].
  rewrite Ha', Hg', Hr'. split_and!; [done..| |done].
  intros Hd. unfold death_check. repeat case_match; simpl; try done.
  all: by rewrite Hdead.
Qed.

Lemma run_terminated acts s :
  terminated s = true → terminated (run acts s) = true ∧ run acts s = s.
Proof.
  intros Ht. assert (run acts s = s) as ->; [|done].
  induction acts as [|act acts IH]; [done|].
  unfold run in *. cbn [foldl]. by rewrite step_terminated.
Qed.

(** X7.  Along any sequence of steps, from any state: gold once held
    is never lost, a used arrow never comes back, a dead wumpus stays
    dead, a dead agent stays dead and a finished episode stays
    finished. *)
Theorem flags_never_go_back acts s :
  (has_gold s = true → has_gold (run acts s) = true) ∧
  (arrow_available s = false → arrow_available (run acts s) = false) ∧
  (wumpus_alive s = false → wumpus_alive (run acts s) = false) ∧
  (dead s = true → dead (run acts s) = true) ∧
  (terminated s = true → terminated (run acts s) = true).
Proof.
  revert s. induction acts as [|act acts IH]; intros s; [done|].
  unfold run. cbn [foldl]. fold (run acts (step act s).1).
  destruct (step_monotone act s) as (S1 & S2 & S3 & S4 & S5).
  destruct (IH (step act s).1) as (I1 & I2 & I3 & I4 & I5).
  split_and!; auto.
Qed.


(** *** Counters *)

Lemma step_counters act s :
  total_reward (step act s).1 = total_reward s + reward (step act s).2 ∧
  steps (step act s).1 = steps s + (if terminated s then 0 else 1).
Proof.
  destruct (terminated s) eqn:Ht.
  { rewrite step_terminated by done. simpl. lia. }
  rewrite step_running by done. cbn zeta. cbn [fst snd].
  pose proof (execute_action_frame act (begin_step s) (-1)) as Hfr.
  pose proof (death_check_frame (execute_action act (begin_step s) (-1)).1
                (execute_action act (begin_step s) (-1)).2) as Hdc.
  cbn zeta in Hfr, Hdc.
  destruct Hfr as (_ & _ & _ & _ & _ & _ & _ & _ & _ & Hst & Htot).
  destruct Hdc as (_ & _ & _ & _ & _ & _ & _ & _ & _ & _ & _ & _ & _ & _ & _ & Hst' & Htot').
  cbn [total_reward steps set_total_reward get_percept reward].
  rewrite Htot', Hst', Htot, Hst. done.
Qed.

(** X8.  The score is the running sum of the rewards handed out: after
    any sequence of steps [total_reward] has grown by the sum of the
    rewards of the returned percepts.  [steps] counts the calls made
    while the episode was running: it grows by at most one per call,
    and by exactly one per call as long as the episode has not ended. *)
Theorem score_is_sum_of_rewards acts s :
  total_reward (run acts s)
    = total_reward s + foldr Z.add 0 (reward <$> trace acts s) ∧
  steps s ≤ steps (run acts s) ≤ steps s + Z.of_nat (length acts) ∧
  (terminated (run acts s) = false →
     steps (run acts s) = steps s + Z.of_nat (length acts)).
Proof.
  revert s. induction acts as [|act acts IH]; intros s.
  { cbn. split_and!; lia. }
  unfold run. cbn [foldl trace fmap list_fmap foldr length].
  fold (run acts (step act s).1).
  destruct (step_counters act s) as [Htot Hsteps].
  destruct (IH (step act s).1) as (IHtot & IHsteps & IHrun).
  split_and!.
  - rewrite IHtot, Htot. unfold fmap. lia.
  - destruct (terminated s); lia.
  - destruct (terminated s); lia.
  - intros Hrun. rewrite (IHrun Hrun), Hsteps.
    destruct (terminated s) eqn:Ht; [|lia].
    destruct (step_monotone act s) as (_ & _ & _ & _ & Hterm).
    destruct (run_terminated acts (step act s).1 (Hterm Ht)).
    congruence.
Qed.


(** *** Steps that do not move the agent *)

(** In a running consistent state the death check lets every action
    but [FORWARD] through. *)
Lemma step_quiet act s :
  consistent s → terminated s = false → act ≠ FORWARD →
  step act s =
    let sr := execute_action act (begin_step s) (-1) in
    (set_total_reward (total_reward sr.1 + sr.2) sr.1,
     get_percept (set_total_reward (total_reward sr.1 + sr.2) sr.1) sr.2).
Proof.
  intros Hs Ht Hact. rewrite step_running by done. cbn zeta.
  destruct (dispatch_safe_unless_forward act s (-1) Hs Ht Hact) as [Hpit Hw].
  destruct (terminated (execute_action act (begin_step s) (-1)).1) eqn:Ht1.
  - by rewrite death_check_terminated.
  - by rewrite death_check_safe.
Qed.

(** X9.  In a reachable state a step pays one of five rewards: 0 (the
    episode was over), -1 (plain step), -11 (arrow shot), 999 (climbed
    out with the gold) or -1001 (walked into a pit or the wumpus). *)
Theorem reward_values act s :
  reachable s →
  reward (step act s).2 ∈ [0; -1; -11; 999; -1001].
Proof.
  intros Hr. apply reachable_consistent in Hr as Hs.
  destruct (terminated s) eqn:Ht.
  { rewrite step_terminated by done. simpl. set_solver. }
  destruct (decide (act = FORWARD)) as [->|Hact].
  - rewrite step_running by done. cbn zeta. cbn [snd get_percept reward].
    assert ((execute_action FORWARD (begin_step s) (-1)).2 = -1) as ->.
    { simpl. by destruct (_in_bounds _ _). }
    unfold death_check. repeat case_match; simpl; set_solver.
  - rewrite step_quiet by done. cbn zeta. cbn [snd get_percept reward].
    destruct act; simpl; repeat case_match; simpl; set_solver.
Qed.

(** X10.  In a running reachable state only [FORWARD] can kill the
    agent and only [FORWARD] and [CLIMB] can end the episode; every
    other action leaves the agent on its cell, alive, at the plain
    cost or the cost of the arrow. *)
Theorem only_forward_kills act s :
  reachable s → terminated s = false →
  (dead (step act s).1 = true → act = FORWARD) ∧
  (terminated (step act s).1 = true → act = FORWARD ∨ act = CLIMB) ∧
  (act ≠ FORWARD → agent_pos (step act s).1 = agent_pos s).
Proof.
  intros Hr Ht. apply reachable_consistent in Hr as Hs.
  assert (dead s = false) as Hd.
  { destruct (dead s) eqn:Hd; [|done]. by rewrite (dead_terminated s Hs Hd) in Ht. }
  destruct (decide (act = FORWARD)) as [->|Hact].
  { split_and!; [done|by left|done]. }
  rewrite step_quiet by done. cbn zeta. cbn [fst].
  destruct act; try done; simpl; repeat case_match; simpl;
    rewrite ?Hd, ?Ht; split_and!; try done; by right.
Qed.

(** X11.  The outcome of the three quiet actions in a running
    reachable state.  A turn replaces the heading by its table entry;
    [GRAB] sets [has_gold] if the agent is on the gold cell and is
    otherwise idle; each costs 1 and touches nothing else beyond the
    step bookkeeping. *)
Theorem quiet_actions s :
  reachable s → terminated s = false →
  (step TURN_LEFT s).1
    = set_total_reward (total_reward s - 1)
        (set_agent_dir (Direction.left (agent_dir s)) (begin_step s)) ∧
  (step TURN_RIGHT s).1
    = set_total_reward (total_reward s - 1)
        (set_agent_dir (Direction.right (agent_dir s)) (begin_step s)) ∧
  (step GRAB s).1
    = set_total_reward (total_reward s - 1)
        (if bool_decide (agent_pos s = gold_pos s)
         then set_has_gold true (begin_step s) else begin_step s) ∧
  reward (step TURN_LEFT s).2 = -1 ∧
  reward (step TURN_RIGHT s).2 = -1 ∧
  reward (step GRAB s).2 = -1.
Proof.
  intros Hr Ht. apply reachable_consistent in Hr as Hs.
  rewrite !step_quiet by done. cbn zeta. cbn [fst snd get_percept reward].
  split_and!; try done.
  all: simpl; by case_bool_decide.
Qed.


(** *** Shooting *)

(** The flight reads only the grid, the heading and the wumpus. *)
Lemma arrow_flight_fuel_ext fuel s s' p :
  width s' = width s → height s' = height s →
  agent_dir s' = agent_dir s → wumpus_pos s' = wumpus_pos s →
  wumpus_alive s' = wumpus_alive s →
  arrow_flight_fuel fuel s' p = arrow_flight_fuel fuel s p.
Proof.
  intros Hw Hh Hd Hwp Hal. revert p.
  induction fuel as [|fuel IH]; intros p; [done|].
  cbn [arrow_flight_fuel]. cbn zeta. unfold _in_bounds.
  rewrite Hw, Hh, Hd, Hwp, Hal. by rewrite IH.
Qed.

Lemma arrow_flight_ext s s' p :
  width s' = width s → height s' = height s →
  agent_dir s' = agent_dir s → wumpus_pos s' = wumpus_pos s →
  wumpus_alive s' = wumpus_alive s →
  arrow_flight s' p = arrow_flight s p.
Proof.
  intros Hw Hh Hd Hwp Hal.
  destruct (arrow_flight_fuel_enough (Datatypes.S (room_ahead s (agent_dir s) p)) s p)
    as [b Hb]; [lia|].
  rewrite (arrow_flight_fuel_sound _ _ _ _ Hb).
  apply (arrow_flight_fuel_sound (Datatypes.S (room_ahead s (agent_dir s) p))).
  by rewrite (arrow_flight_fuel_ext _ s s').
Qed.



Lemma arrow_flight_fuel_hit fuel s p :
  arrow_flight_fuel fuel s p = Some true →
  wumpus_alive s = true ∧
  ∃ k, (0 < k)%nat ∧ wumpus_pos s = cell_ahead (agent_dir s) k p ∧
       _in_bounds s (wumpus_pos s) = true.
Proof.
  revert p. induction fuel as [|fuel IH]; intros p; [done|].
  cbn [arrow_flight_fuel]. cbn zeta.
  destruct (_in_bounds s (_forward_pos p (agent_dir s))) eqn:Hin; [|done].
  cbn [negb].
  destruct (bool_decide (_forward_pos p (agent_dir s) = wumpus_pos s)
            && wumpus_alive s) eqn:Hhit.
  - intros _. apply andb_true_iff in Hhit as [Heq Hal].
    apply bool_decide_eq_true in Heq. split; [done|].
    exists 1%nat. split_and!; [lia|done|by rewrite <- Heq].
  - intros Hrec. destruct (IH _ Hrec) as (Hal & k & Hk & Heq & Hwin).
    split; [done|]. exists (Datatypes.S k). split_and!; [lia| |done].
    rewrite Heq. unfold cell_ahead. by rewrite Nat.iter_succ_r.
Qed.




Lemma shoot_arrow_begin_step s :
  _shoot_arrow (set_arrow_available false (begin_step s)) = _shoot_arrow s.
Proof. unfold _shoot_arrow. by apply arrow_flight_ext. Qed.

(** X13.  [SHOOT] with the arrow in hand, in a running reachable
    state: the arrow is gone, the step costs 11, the percept screams
    exactly when the arrow hits, and the wumpus is alive afterwards
    exactly when it was alive and the arrow missed.  The agent stays
    where it is and the episode goes on. *)
Theorem shoot_with_arrow s :
  reachable s → terminated s = false → arrow_available s = true →
  (step SHOOT s).1
    = set_total_reward (total_reward s - 11)
        (if _shoot_arrow s
         then set_last_scream true
                (set_wumpus_alive false (set_arrow_available false (begin_step s)))
         else set_arrow_available false (begin_step s)) ∧
  reward (step SHOOT s).2 = -11 ∧
  scream (step SHOOT s).2 = _shoot_arrow s ∧
  arrow_available (step SHOOT s).1 = false ∧
  wumpus_alive (step SHOOT s).1 = wumpus_alive s && negb (_shoot_arrow s) ∧
  terminated (step SHOOT s).1 = false.
Proof.
  intros Hr Ht Harrow. apply reachable_consistent in Hr as Hs.
  rewrite step_quiet by done. cbn zeta. cbn [execute_action].
  change (arrow_available (begin_step s)) with (arrow_available s).
  rewrite Harrow, shoot_arrow_begin_step.
  destruct (_shoot_arrow s) eqn:Hhit; cbn; rewrite ?Ht, ?andb_true_r, ?andb_false_r;
    by split_and!.
Qed.

Lemma step_scream_iff act s :
  terminated s = false →
  (scream (step act s).2 = true ↔
     act = SHOOT ∧ arrow_available s = true ∧ _shoot_arrow s = true).
Proof.
  intros Ht.
  rewrite step_running by done. cbn zeta. cbn [snd get_percept scream].
  pose proof (death_check_frame (execute_action act (begin_step s) (-1)).1
                (execute_action act (begin_step s) (-1)).2) as Hdc.
  cbn zeta in Hdc.
  destruct Hdc as (_ & _ & _ & _ & _ & _ & _ & _ & _ & _ & _ & _ & _ & _ & Hsc & _).
  cbn [_last_scream set_total_reward]. rewrite Hsc.
  destruct act; cbn [execute_action].
  6: { repeat case_match; cbn; split; try done; by intros (? & _). }
  4: { change (arrow_available (begin_step s)) with (arrow_available s).
       rewrite shoot_arrow_begin_step.
       destruct (arrow_available s), (_shoot_arrow s); cbn; split; try done.
       all: by intros (_ & ? & ?). }
  all: repeat case_match; cbn; split; try done; by intros (? & _).
Qed.

(** Only a live wumpus is ever hit. *)
Lemma shoot_arrow_alive s : _shoot_arrow s = true → wumpus_alive s = true.
Proof.
  unfold _shoot_arrow. intros Hhit.
  destruct (arrow_flight_fuel_enough
              (Datatypes.S (room_ahead s (agent_dir s) (agent_pos s))) s (agent_pos s))
    as [b Hb]; [lia|].
  rewrite (arrow_flight_fuel_sound _ _ _ _ Hb) in Hhit. subst b.
  by apply arrow_flight_fuel_hit in Hb as [Hal _].
Qed.

(** X14.  In a running state, reachable or not, the percept of a step
    screams exactly when the step is a [SHOOT] with the arrow in hand
    that hits.  In particular no step screams once the arrow is used
    or the wumpus is dead. *)
Theorem scream_iff_hit act s :
  terminated s = false →
  (scream (step act s).2 = true ↔
     act = SHOOT ∧ arrow_available s = true ∧ _shoot_arrow s = true) ∧
  (wumpus_alive s = false ∨ arrow_available s = false →
     scream (step act s).2 = false).
Proof.
  intros Ht. split; [by apply step_scream_iff|].
  intros Hgone. apply not_true_is_false. intros Hsc.
  apply step_scream_iff in Hsc as (_ & Harrow & Hhit); [|done].
  apply shoot_arrow_alive in Hhit. destruct Hgone; congruence.
Qed.


(** *** How episodes end *)

Lemma ended_well_set_total_reward v s :
  ended_well s → ended_well (set_total_reward v s).
Proof. done. Qed.

Lemma step_ended_well act s :
  consistent s → ended_well s → ended_well (step act s).1.
Proof.
  intros Hs Hend. destruct (terminated s) eqn:Ht.
  { by rewrite step_terminated. }
  assert (dead s = false) as Hd.
  { destruct (dead s) eqn:Hd; [|done]. by rewrite (dead_terminated s Hs Hd) in Ht. }
  destruct (decide (act = FORWARD)) as [->|Hact].
  - rewrite step_running by done. cbn zeta. cbn [fst snd execute_action].
    change (_in_bounds (begin_step s) ?p) with (_in_bounds s p).
    change (agent_pos (begin_step s)) with (agent_pos s).
    change (agent_dir (begin_step s)) with (agent_dir s).
    destruct (_in_bounds s (_forward_pos (agent_pos s) (agent_dir s))) eqn:Hin.
    + cbn [fst snd]. unfold death_check, ended_well.
      cbn [negb terminated set_agent_pos begin_step set_last_scream set_last_bump
           set_steps agent_pos pits wumpus_pos wumpus_alive].
      rewrite Ht. cbn [negb].
      case_bool_decide as Hpit.
      { cbn. intros _. split_and!; [done..|]. left. split; [done|by left]. }
      destruct (bool_decide (_forward_pos (agent_pos s) (agent_dir s) = wumpus_pos s)
                && wumpus_alive s) eqn:Hw.
      { cbn. intros _. split_and!; [done..|]. left. split; [done|right].
        apply andb_true_iff in Hw as [Hw1 Hw2].
        by apply bool_decide_eq_true in Hw1. }
      cbn. by rewrite Ht.
    + cbn [fst snd]. rewrite death_check_safe; [|done|by apply Hs..].
      unfold ended_well. cbn. by rewrite Ht.
  - rewrite step_quiet by done. cbn zeta. cbn [fst].
    apply ended_well_set_total_reward.
    destruct (decide (act = CLIMB)) as [->|Hclimb].
    + rewrite execute_climb.
      change (agent_pos (begin_step s)) with (agent_pos s).
      change (allow_climb_without_gold (begin_step s)) with (allow_climb_without_gold s).
      change (has_gold (begin_step s)) with (has_gold s).
      destruct (bool_decide (agent_pos s = start)
                && (allow_climb_without_gold s || has_gold s)) eqn:Hc; cbn [fst].
      * apply andb_true_iff in Hc as [Hstart Hallow].
        apply bool_decide_eq_true in Hstart. apply orb_true_iff in Hallow.
        intros _. cbn. split_and!; [done..|]. right. by rewrite Hd.
      * intros Hterm. cbn in Hterm. congruence.
    + intros Hterm. rewrite execute_action_terminated in Hterm by done.
      by rewrite (bool_decide_eq_false_2 (act = CLIMB)) in Hterm.
Qed.

Lemma reachable_ended_well s : reachable s → ended_well s.
Proof.
  induction 1 as [w h allow prob g s Hc|act s Hr IH].
  - destruct (create_inr _ _ _ _ _ _ Hc) as (g1 & g2 & _ & _ & ->). done.
  - apply step_ended_well; [by apply reachable_consistent|done].
Qed.

(** X15.  A reachable episode that is over ended in one of two ways:
    the agent is dead and stands on a pit or on the cell of the wumpus,
    which is alive; or the agent is not dead, stands on the start cell
    and either climbing without gold is allowed or it holds the gold.
    In both cases the last percept carries neither bump nor scream. *)
Theorem episode_end_causes s :
  reachable s → terminated s = true →
  _last_bump s = false ∧ _last_scream s = false ∧
  ((dead s = true ∧
    (agent_pos s ∈ pits s ∨
     (agent_pos s = wumpus_pos s ∧ wumpus_alive s = true))) ∨
   (dead s = false ∧ agent_pos s = start ∧
    (allow_climb_without_gold s = true ∨ has_gold s = true))).
Proof. intros Hr. by apply reachable_ended_well. Qed.

(** X16.  A [FORWARD] of a running reachable episode onto a cell of the
    grid that holds neither a pit nor the live wumpus moves the agent
    there, costs 1, reports no bump and keeps the episode running. *)
Theorem forward_to_safe_cell s :
  reachable s → terminated s = false →
  let nxt := _forward_pos (agent_pos s) (agent_dir s) in
  _in_bounds s nxt = true → nxt ∉ pits s →
  (nxt = wumpus_pos s → wumpus_alive s = false) →
  (step FORWARD s).1
    = set_total_reward (total_reward s - 1) (set_agent_pos nxt (begin_step s)) ∧
  reward (step FORWARD s).2 = -1 ∧
  bump (step FORWARD s).2 = false ∧
  terminated (step FORWARD s).1 = false.
Proof.
  intros Hr Ht nxt Hin Hpit Hw.
  rewrite step_running by done. cbn zeta. cbn [execute_action].
  change (_in_bounds (begin_step s) ?p) with (_in_bounds s p).
  change (agent_pos (begin_step s)) with (agent_pos s).
  change (agent_dir (begin_step s)) with (agent_dir s).
  fold nxt. rewrite Hin. cbn [fst snd].
  rewrite death_check_safe by done. cbn. by rewrite Ht.
Qed.


Lemma step_shoot_arrow_gone s :
  terminated s = false → arrow_available (step SHOOT s).1 = false.
Proof.
  intros Ht. rewrite step_running by done. cbn zeta. cbn [fst].
  pose proof (death_check_frame (execute_action SHOOT (begin_step s) (-1)).1
                (execute_action SHOOT (begin_step s) (-1)).2) as Hdc.
  cbn zeta in Hdc.
  destruct Hdc as (_ & _ & _ & _ & _ & _ & _ & _ & _ & _ & _ & _ & Harrow & _).
  cbn [arrow_available set_total_reward]. rewrite Harrow.
  cbn [execute_action].
  destruct (arrow_available (begin_step s)) eqn:Ha; [|done].
  by destruct (_shoot_arrow _).
Qed.

Lemma no_scream_once_spent acts s :
  reachable s →
  wumpus_alive s = false ∨ arrow_available s = false →
  Forall (λ pc, scream pc = false) (trace acts s).
Proof.
  revert s. induction acts as [|act acts IH]; intros s Hr Hgone; [by constructor|].
  cbn [trace]. constructor.
  - destruct (terminated s) eqn:Ht.
    + rewrite step_terminated by done. cbn.
      by destruct (reachable_ended_well s Hr Ht) as (_ & ? & _).
    + apply not_true_is_false. intros Hsc.
      apply step_scream_iff in Hsc as (_ & Harrow & Hhit); [|done].
      apply shoot_arrow_alive in Hhit. destruct Hgone; congruence.
  - apply IH; [by apply reachable_step|].
    destruct (step_monotone act s) as (_ & Harrow & Halive & _).
    destruct Hgone; [left|right]; auto.
Qed.

(** X17.  A reachable episode is screamed in at most once: among the
    percepts returned by any sequence of steps at most one has the
    scream flag set, and none at all once the wumpus is dead or the
    arrow is used, whether the episode is still running or not. *)
Theorem at_most_one_scream acts s :
  reachable s →
  (length (List.filter scream (trace acts s)) ≤ 1)%nat ∧
  (wumpus_alive s = false ∨ arrow_available s = false →
     Forall (λ pc, scream pc = false) (trace acts s)).
Proof.
  intros Hr. split; [|by apply no_scream_once_spent].
  revert s Hr. induction acts as [|act acts IH]; intros s Hr; [cbn; lia|].
  cbn [trace List.filter].
  destruct (scream (step act s).2) eqn:Hsc; [|by apply IH, reachable_step].
  assert (terminated s = false) as Ht.
  { destruct (terminated s) eqn:Ht; [|done].
    rewrite step_terminated in Hsc by done. cbn in Hsc.
    destruct (reachable_ended_well s Hr Ht) as (_ & ? & _). congruence. }
  apply step_scream_iff in Hsc as (-> & _ & _); [|done].
  pose proof (no_scream_once_spent acts (step SHOOT s).1
                (reachable_step SHOOT s Hr)
                (or_intror (step_shoot_arrow_gone s Ht))) as Hnone.
  assert (List.filter scream (trace acts (step SHOOT s).1) = []) as ->; [|cbn; lia].
  induction Hnone as [|pc l Hpc _ IHl]; [done|].
  cbn [List.filter]. by rewrite Hpc.
Qed.


(** *** The debug board *)

Lemma elem_of_grid_cells w h p :
  p ∈ grid_cells w h ↔ (1 ≤ Pos.x p ≤ w) ∧ (1 ≤ Pos.y p ≤ h).
Proof.
  unfold grid_cells. rewrite list_elem_of_bind. split.
  - intros (xv & Hp & Hx). apply list_elem_of_bind in Hp as (yv & Hp & Hy).
    apply elem_of_range in Hx, Hy. apply list_elem_of_singleton in Hp as ->.
    simpl. lia.
  - intros [Hx Hy]. exists (Pos.x p). split; [|apply elem_of_range; lia].
    apply list_elem_of_bind. exists (Pos.y p). split; [|apply elem_of_range; lia].
    destruct p. by apply list_elem_of_singleton.
Qed.

Lemma blank_board_lookup (l : list Pos.t) (b : gmap Pos.t (gset string)) q :
  foldl (λ b p, <[p := ∅]> b) b l !! q
    = if decide (q ∈ l) then Some ∅ else b !! q.
Proof.
  revert b. induction l as [|p l IH]; intros b; cbn [foldl].
  - by rewrite decide_False by apply not_elem_of_nil.
  - rewrite IH. destruct (decide (q ∈ l)) as [Hin|Hnin].
    + rewrite decide_True; [done|by right].
    + destruct (decide (q = p)) as [->|Hne].
      * rewrite decide_True by left. by rewrite lookup_insert_eq.
      * rewrite decide_False; [by rewrite lookup_insert_ne|].
        rewrite elem_of_cons. tauto.
Qed.

Lemma blank_board_shows s :
  board_shows s (λ _, ∅)
    (foldl (λ b p, <[p := ∅]> b) ∅ (grid_cells (width s) (height s))).
Proof.
  intros q. rewrite blank_board_lookup.
  destruct (_in_bounds s q) eqn:Hin.
  - rewrite decide_True; [done|]. by apply elem_of_grid_cells, in_bounds_iff.
  - rewrite decide_False; [done|]. rewrite elem_of_grid_cells, <- in_bounds_iff.
    by rewrite Hin.
Qed.

Lemma board_add_inside s tags tag p board :
  board_shows s tags board → _in_bounds s p = true →
  ∃ board', board_add tag p board = inr board' ∧
    board_shows s (λ q, if decide (q = p) then {[tag]} ∪ tags q else tags q) board'.
Proof.
  intros Hb Hin. unfold board_add. rewrite (Hb p), Hin.
  eexists. split; [done|]. intros q.
  destruct (decide (q = p)) as [->|Hne].
  - by rewrite lookup_insert_eq, Hin.
  - by rewrite lookup_insert_ne.
Qed.

Lemma board_add_outside s tags tag p board :
  board_shows s tags board → _in_bounds s p = false →
  board_add tag p board = inl KeyError.
Proof. intros Hb Hout. unfold board_add. by rewrite (Hb p), Hout. Qed.

Lemma tag_pits_raised (l : list Pos.t) :
  foldl (λ acc pit, and_then acc (board_add "P" pit)) (inl KeyError) l
    = inl KeyError.
Proof. by induction l. Qed.

Lemma tag_pits_inside s tags (l : list Pos.t) board :
  board_shows s tags board → Forall (λ p, _in_bounds s p = true) l →
  ∃ board',
    foldl (λ acc pit, and_then acc (board_add "P" pit)) (inr board) l = inr board' ∧
    board_shows s (λ q, if decide (q ∈ l) then {["P"]} ∪ tags q else tags q) board'.
Proof.
  intros Hb Hall. revert tags board Hb.
  induction Hall as [|p l Hp _ IH]; intros tags board Hb; cbn [foldl and_then].
  - exists board. split; [done|]. intros q.
    by rewrite decide_False by apply not_elem_of_nil.
  - destruct (board_add_inside s tags "P" p board Hb Hp) as (b1 & -> & Hb1).
    destruct (IH _ _ Hb1) as (b2 & -> & Hb2).
    exists b2. split; [done|]. intros q. rewrite (Hb2 q).
    destruct (_in_bounds s q); [|done]. f_equal.
    destruct (decide (q ∈ l)), (decide (q = p)).
    + rewrite decide_True by (by right).
      by rewrite (assoc_L (∪)), (idemp_L (∪)).
    + by rewrite decide_True by (by right).
    + rewrite decide_True; [done|]. subst. left.
    + rewrite decide_False; [done|]. rewrite elem_of_cons. tauto.
Qed.

Lemma tag_pits_outside s tags (l : list Pos.t) board :
  board_shows s tags board → Exists (λ p, _in_bounds s p = false) l →
  foldl (λ acc pit, and_then acc (board_add "P" pit)) (inr board) l = inl KeyError.
Proof.
  intros Hb Hex. revert tags board Hb.
  induction l as [|p l IH]; intros tags board Hb; [by inversion Hex|].
  cbn [foldl and_then]. destruct (_in_bounds s p) eqn:Hp.
  - destruct (board_add_inside s tags "P" p board Hb Hp) as (b1 & -> & Hb1).
    eapply IH; [|done]. inversion Hex; [congruence|done].
  - rewrite (board_add_outside s tags "P" p board Hb Hp). apply tag_pits_raised.
Qed.

Lemma get_debug_board_inside s :
  all_in_grid s →
  ∃ board, get_debug_board s = inr board ∧ board_shows s (cell_tags s) board.
Proof.
  intros (Hpits & Hgold & Hwum & Hagent). unfold get_debug_board. cbn zeta.
  destruct (tag_pits_inside s _ (elements (pits s)) _ (blank_board_shows s))
    as (b1 & -> & Hb1).
  { apply Forall_forall. intros p Hp. by apply Hpits, elem_of_elements. }
  cbn [and_then].
  destruct (board_add_inside s _ "G" _ _ Hb1 Hgold) as (b2 & -> & Hb2).
  cbn [and_then].
  destruct (board_add_inside s _ (if wumpus_alive s then "W" else "w") _ _ Hb2 Hwum)
    as (b3 & -> & Hb3).
  cbn [and_then].
  destruct (board_add_inside s _ "A" _ _ Hb3 Hagent) as (b4 & -> & Hb4).
  exists b4. split; [done|]. intros q. rewrite (Hb4 q).
  destruct (_in_bounds s q); [|done]. f_equal. unfold cell_tags.
  destruct (decide (q = agent_pos s)), (decide (q = wumpus_pos s)),
    (decide (q = gold_pos s)), (decide (q ∈ pits s)) as [Hp|Hp].
  all: first [rewrite (decide_True (P := q ∈ elements (pits s)))
                by (by apply elem_of_elements)
             |rewrite (decide_False (P := q ∈ elements (pits s)))
                by (by rewrite elem_of_elements)].
  all: apply set_eq; intros tag; rewrite !elem_of_union, ?elem_of_empty; tauto.
Qed.

Lemma get_debug_board_outside s :
  ¬ all_in_grid s → get_debug_board s = inl KeyError.
Proof.
  intros Hnot. unfold get_debug_board. cbn zeta.
  destruct (decide (Forall (λ p, _in_bounds s p = true) (elements (pits s))))
    as [Hall|Hex].
  - destruct (tag_pits_inside s _ (elements (pits s)) _ (blank_board_shows s) Hall)
      as (b1 & -> & Hb1).
    cbn [and_then]. destruct (_in_bounds s (gold_pos s)) eqn:Hgold.
    2: { by rewrite (board_add_outside s _ "G" _ _ Hb1 Hgold). }
    destruct (board_add_inside s _ "G" _ _ Hb1 Hgold) as (b2 & -> & Hb2).
    cbn [and_then]. destruct (_in_bounds s (wumpus_pos s)) eqn:Hwum.
    2: { by rewrite (board_add_outside s _ _ _ _ Hb2 Hwum). }
    destruct (board_add_inside s _ (if wumpus_alive s then "W" else "w") _ _ Hb2 Hwum)
      as (b3 & -> & Hb3).
    cbn [and_then]. destruct (_in_bounds s (agent_pos s)) eqn:Hagent.
    2: { by rewrite (board_add_outside s _ "A" _ _ Hb3 Hagent). }
    destruct Hnot. split_and!; [|done..].
    intros p Hp. rewrite Forall_forall in Hall. by apply Hall, elem_of_elements.
  - apply not_Forall_Exists in Hex; [|apply _].
    rewrite (tag_pits_outside s _ _ _ (blank_board_shows s)); [done|].
    eapply Exists_impl; [exact Hex|]. intros p Hp. by apply not_true_is_false.
Qed.


Lemma all_in_grid_dec s : Decision (all_in_grid s).
Proof.
  unfold all_in_grid. apply and_dec; [|apply _].
  apply (set_Forall_dec (λ p, _in_bounds s p = true)).
Qed.

Lemma reachable_all_in_grid s : reachable s → all_in_grid s.
Proof.
  intros Hr. destruct (reachable_well_placed s Hr) as [Hg _ Hw _ Hp].
  split_and!; [|done..|by apply reachable_consistent].
  intros p Hin. by apply Hp.
Qed.

(** X18.  [get_debug_board] returns a board exactly when every pit,
    the gold, the wumpus and the agent lie inside the grid, and raises
    [KeyError] exactly when one of them does not; for a reachable state
    it always returns a board. *)
Theorem debug_board_defined s :
  ((∃ board, get_debug_board s = inr board) ↔
     (∀ p, p ∈ pits s → _in_bounds s p = true) ∧
     _in_bounds s (gold_pos s) = true ∧
     _in_bounds s (wumpus_pos s) = true ∧
     _in_bounds s (agent_pos s) = true) ∧
  (get_debug_board s = inl KeyError ↔
     (∃ p, p ∈ pits s ∧ _in_bounds s p = false) ∨
     _in_bounds s (gold_pos s) = false ∨
     _in_bounds s (wumpus_pos s) = false ∨
     _in_bounds s (agent_pos s) = false) ∧
  (reachable s → ∃ board, get_debug_board s = inr board).
Proof.
  split_and!.
  - split.
    + intros [board Hb]. destruct (all_in_grid_dec s) as [Hall|Hnot]; [done|].
      rewrite (get_debug_board_outside s Hnot) in Hb. done.
    + intros Hall. destruct (get_debug_board_inside s Hall) as (board & Hb & _).
      by exists board.
  - split.
    + intros Herr.
      destruct (decide (set_Forall (λ p, _in_bounds s p = true) (pits s)))
        as [Hpits|Hpits].
      2: { left. apply not_set_Forall_Exists in Hpits; [|apply _].
           destruct Hpits as (p & Hp & Hout). exists p.
           split; [done|]. by apply not_true_is_false. }
      right.
      destruct (_in_bounds s (gold_pos s)) eqn:Hg; [|by left].
      destruct (_in_bounds s (wumpus_pos s)) eqn:Hw; [|by right; left].
      destruct (_in_bounds s (agent_pos s)) eqn:Ha; [|by right; right].
      destruct (get_debug_board_inside s) as (board & Hb & _); [done|].
      congruence.
    + intros Hout. apply get_debug_board_outside.
      intros (Hpits & Hg & Hw & Ha).
      destruct Hout as [(p & Hp & Hout)|[?|[?|?]]]; try congruence.
      rewrite (Hpits p Hp) in Hout. done.
  - intros Hr.
    destruct (reachable_well_placed s Hr) as [Hg _ Hw _ Hp].
    destruct (get_debug_board_inside s) as (board & Hb & _); [|by exists board].
    split_and!; [|done..|by apply reachable_consistent].
    intros p Hin. by apply Hp.
Qed.

(** X19.  The board [get_debug_board] returns has exactly the cells of
    the grid as keys, and a cell carries [A] exactly on the agent's
    cell, [P] exactly on the pits, [G] exactly on the gold cell, [W]
    exactly on the cell of the live wumpus, [w] exactly on the cell of
    the dead wumpus, and no other tag. *)
Theorem debug_board_contents s board :
  get_debug_board s = inr board →
  (∀ q, is_Some (board !! q) ↔ _in_bounds s q = true) ∧
  (∀ q cell, board !! q = Some cell →
     ("A" ∈ cell ↔ q = agent_pos s) ∧
     ("P" ∈ cell ↔ q ∈ pits s) ∧
     ("G" ∈ cell ↔ q = gold_pos s) ∧
     ("W" ∈ cell ↔ q = wumpus_pos s ∧ wumpus_alive s = true) ∧
     ("w" ∈ cell ↔ q = wumpus_pos s ∧ wumpus_alive s = false) ∧
     (∀ tag, tag ∈ cell → tag ∈ ["A"; "P"; "G"; "W"; "w"])).
Proof.
  intros Hb. destruct (all_in_grid_dec s) as [Hall|Hnot].
  2: { by rewrite (get_debug_board_outside s Hnot) in Hb. }
  destruct (get_debug_board_inside s Hall) as (board' & Hb' & Hshows).
  assert (board' = board) as -> by congruence. clear Hb Hb'. split.
  - intros q. rewrite (Hshows q).
    destruct (_in_bounds s q); split; try done; by intros [? ?].
  - intros q cell Hcell. rewrite (Hshows q) in Hcell.
    destruct (_in_bounds s q); [|done]. injection Hcell as <-.
    unfold cell_tags.
    split_and!; try intros tag;
      rewrite !elem_of_union; repeat case_decide; destruct (wumpus_alive s);
      rewrite ?elem_of_singleton, ?elem_of_empty, ?elem_of_cons, ?elem_of_nil;
      try (intuition congruence); intuition discriminate.
Qed.


(** *** Board rendering *)

Lemma elem_of_range_down hi lo z : z ∈ range_down hi lo ↔ lo < z ≤ hi.
Proof.
  unfold range_down. rewrite list_elem_of_fmap. split.
  - intros (i & -> & Hi). apply elem_of_seq in Hi. lia.
  - intros Hz. exists (Z.to_nat (hi - z)). split; [lia|].
    apply elem_of_seq. lia.
Qed.

Lemma map_raise_inr {E A B : Type} (f : A → E + B) (g : A → B) (l : list A) :
  (∀ a, a ∈ l → f a = inr (g a)) → map_raise f l = inr (g <$> l).
Proof.
  induction l as [|a l IH]; intros Hf; [done|].
  cbn [map_raise]. rewrite (Hf a) by left. cbn [and_then].
  rewrite IH; [done|]. intros a' Ha'. apply Hf. by right.
Qed.

Lemma dir_emoji_defined d :
  ∃ arrow, dir_emoji !! direction_name d = Some arrow.
Proof. destruct d; by eexists. Qed.

(** The page [render_board_html] builds from a board that shows
    [tags]. *)
Lemma render_board_html_shows s reveal :
  all_in_grid s →
  ∃ arrow,
    dir_emoji !! direction_name (agent_dir s) = Some arrow ∧
    render_board_html s reveal
      = inr ("<table style='border-collapse:separate;border-spacing:6px;'>"
             +:+ String.concat ""
                   ((λ yv, "<tr>"
                        +:+ String.concat ""
                              ((λ xv, td (cell_emoji ("🤖" +:+ arrow) reveal
                                            (cell_tags s (Pos.mk xv yv))))
                                 <$> range 1 (width s + 1))
                        +:+ "</tr>")
                      <$> range_down (height s) 0)
             +:+ "</table>").
Proof.
  intros Hall. destruct (get_debug_board_inside s Hall) as (board & Hb & Hshows).
  destruct (dir_emoji_defined (agent_dir s)) as [arrow Harrow].
  exists arrow. split; [done|].
  unfold render_board_html. rewrite Hb, Harrow. cbn [and_then]. cbn zeta.
  erewrite (map_raise_inr (render_row board _ reveal (width s))); [done|].
  intros yv Hy. apply elem_of_range_down in Hy.
  unfold render_row.
  erewrite (map_raise_inr
              (λ xv, match board !! Pos.mk xv yv with
                     | Some cell_set => inr _
                     | None => inl KeyError
                     end)); [done|].
  intros xv Hx. apply elem_of_range in Hx. cbn beta.
  rewrite (Hshows (Pos.mk xv yv)).
  assert (_in_bounds s (Pos.mk xv yv) = true) as ->; [|done].
  apply in_bounds_iff. cbn. lia.
Qed.

(** X20.  Rendering adds no failure of its own: [render_board_html]
    returns a page exactly when [get_debug_board] returns a board (its
    own look-ups, of the heading and of the cells of the grid, never
    miss), so it always does for a reachable state, in both views. *)
Theorem render_board_defined s reveal :
  ((∃ html, render_board_html s reveal = inr html) ↔
     (∃ board, get_debug_board s = inr board)) ∧
  (reachable s → ∃ html, render_board_html s reveal = inr html).
Proof.
  assert (all_in_grid s → ∃ html, render_board_html s reveal = inr html) as Hok.
  { intros Hall. destruct (render_board_html_shows s reveal Hall) as (? & _ & ->).
    by eexists. }
  split.
  - split.
    + intros [html Hhtml]. unfold render_board_html in Hhtml.
      destruct (get_debug_board s) as [e|board]; [done|]. by exists board.
    + intros [board Hb]. apply Hok.
      destruct (all_in_grid_dec s) as [Hall|Hnot]; [done|].
      by rewrite (get_debug_board_outside s Hnot) in Hb.
  - intros Hr. apply Hok.
    destruct (reachable_well_placed s Hr) as [Hg _ Hw _ Hp].
    split_and!; [|done..|by apply reachable_consistent].
    intros p Hin. by apply Hp.
Qed.

(** X21.  The agent view gives nothing away: with [reveal] off, two
    states with the same grid and the same agent position and heading
    render to the same page whenever both boards exist, whatever their
    pits, gold and wumpus are. *)
Theorem hidden_view_hides s s' :
  width s' = width s → height s' = height s →
  agent_pos s' = agent_pos s → agent_dir s' = agent_dir s →
  (∃ board, get_debug_board s = inr board) →
  (∃ board, get_debug_board s' = inr board) →
  render_board_html s' false = render_board_html s false.
Proof.
  intros Hw Hh Hp Hd [board Hb] [board' Hb'].
  assert (all_in_grid s ∧ all_in_grid s') as [Hall Hall'].
  { split.
    - destruct (all_in_grid_dec s) as [?|Hnot]; [done|].
      by rewrite (get_debug_board_outside s Hnot) in Hb.
    - destruct (all_in_grid_dec s') as [?|Hnot]; [done|].
      by rewrite (get_debug_board_outside s' Hnot) in Hb'. }
  destruct (render_board_html_shows s false Hall) as (arrow & Harrow & ->).
  destruct (render_board_html_shows s' false Hall') as (arrow' & Harrow' & ->).
  rewrite Hd, Harrow in Harrow'. injection Harrow' as <-.
  assert (∀ p, cell_emoji ("🤖" +:+ arrow) false (cell_tags s' p)
               = cell_emoji ("🤖" +:+ arrow) false (cell_tags s p)) as Hcell.
  { intros p. unfold cell_emoji, cell_tags. rewrite Hp. cbn [negb].
    destruct (decide (p = agent_pos s)) as [Heq|Hne].
    - rewrite !bool_decide_eq_true_2; [done|..];
        rewrite !elem_of_union, elem_of_singleton; tauto.
    - rewrite !bool_decide_eq_false_2; [done|..];
        rewrite !elem_of_union, elem_of_empty; repeat case_decide;
        destruct (wumpus_alive s), (wumpus_alive s');
        rewrite ?elem_of_singleton, ?elem_of_empty; intuition discriminate. }
  rewrite Hw, Hh. do 4 f_equal.
  apply list_fmap_ext. intros _ yv _. do 3 f_equal.
  apply list_fmap_ext. intros _ xv _. by rewrite Hcell.
Qed.

(** *** The baseline agent, the runner and the log *)

Lemma choose_action_inr g pc :
  ∃ a g', choose_action g pc = inr (a, g') ∧ a ∈ actions.
Proof. unfold choose_action. by apply choice_cons. Qed.

Lemma agent_turn_inr ss :
  ∃ a g',
    agent_turn ss
      = inr {| env := (step a (env ss)).1;
               agent := g';
               log := log ss ++ [log_step (step a (env ss)).1 a (step a (env ss)).2];
               running := running ss |}.
Proof.
  unfold agent_turn. cbn zeta.
  destruct (choose_action_inr (agent ss) (get_percept (env ss) 0)) as (a & g' & -> & _).
  exists a, g'. cbn [and_then]. by destruct (step a (env ss)).
Qed.

Lemma play_stopped n max_steps ss :
  running ss = false → play n max_steps ss = inr ss.
Proof.
  intros Hoff. induction n as [|n IH]; [done|].
  cbn [play]. unfold play_tick. by rewrite Hoff.
Qed.

Lemma play_succ n max_steps ss :
  play (Datatypes.S n) max_steps ss
    = and_then (play_tick max_steps ss) (play n max_steps).
Proof. done. Qed.

Lemma play_within_budget n max_steps ss :
  (Z.to_nat (max_steps - steps (env ss)) ≤ n)%nat →
  ∃ ss', play (Datatypes.S n) max_steps ss = inr ss' ∧
         running ss' = false ∧
         steps (env ss') ≤ Z.max max_steps (steps (env ss)) ∧
         (reachable (env ss) → reachable (env ss')).
Proof.
  revert ss. induction n as [|n IH]; intros ss Hn.
  - rewrite play_succ. unfold play_tick.
    destruct (running ss) eqn:Hrun.
    + rewrite (bool_decide_eq_false_2 (steps (env ss) < max_steps)) by lia.
      rewrite andb_false_r. cbn [and_then].
      eexists. split_and!; [done|done|cbn; lia|done].
    + cbn [and_then]. exists ss. split_and!; [done|done|lia|done].
  - rewrite play_succ. unfold play_tick. destruct (running ss) eqn:Hrun.
    2: { cbn [and_then]. rewrite play_stopped by done.
         exists ss. split_and!; [done|done|lia|done]. }
    destruct (negb (is_terminal (env ss))
              && bool_decide (steps (env ss) < max_steps)) eqn:Hguard.
    + apply andb_true_iff in Hguard as [Hterm Hlt].
      apply negb_true_iff in Hterm. apply bool_decide_eq_true in Hlt.
      destruct (agent_turn_inr ss) as (a & g' & ->). cbn [and_then].
      destruct (step_counters a (env ss)) as [_ Hsteps].
      unfold is_terminal in Hterm. rewrite Hterm in Hsteps.
      edestruct IH as (ss' & Hplay & Hoff & Hbound & Hreach); last first.
      { exists ss'. split; [exact Hplay|]. cbn [env] in *.
        split_and!; [done|lia|]. intros Hr. by apply Hreach, reachable_step. }
      cbn [env]. lia.
    + cbn [and_then]. rewrite play_stopped by done.
      eexists. split_and!; [done|done|cbn; lia|done].
Qed.

(** X22.  The automatic runner always stops by itself, without an
    exception: from any session, after at most
    [max_steps - steps + 1] passes [running] is off.  While running it
    never takes the step counter beyond [max_steps], and it keeps a
    reachable environment reachable; once off, further passes change
    nothing. *)
Theorem runner_stops max_steps ss :
  ∃ ss',
    play (Z.to_nat (max_steps - steps (env ss)) + 1) max_steps ss = inr ss' ∧
    running ss' = false ∧
    steps (env ss') ≤ Z.max max_steps (steps (env ss)) ∧
    (reachable (env ss) → reachable (env ss')) ∧
    (∀ n, play n max_steps ss' = inr ss').
Proof.
  destruct (play_within_budget (Z.to_nat (max_steps - steps (env ss))) max_steps ss)
    as (ss' & Hplay & Hoff & Hbound & Hreach); [lia|].
  exists ss'. rewrite Nat.add_1_r. split_and!; [done..|].
  intros n. by apply play_stopped.
Qed.

Lemma sum_rewards_snoc (l : list LogRow.t) (row : LogRow.t) :
  foldr Z.add 0 (LogRow.reward <$> (l ++ [row]))
    = foldr Z.add 0 (LogRow.reward <$> l) + LogRow.reward row.
Proof.
  induction l as [|r l IH]; cbn; [lia|]. cbn in IH. rewrite IH. lia.
Qed.

Lemma agent_turn_log_tracks ss ss' :
  log_tracks ss → terminated (env ss) = false →
  agent_turn ss = inr ss' → log_tracks ss'.
Proof.
  intros [Hcount Hnum Hscore Htotal Hterm] Hrun Hturn.
  destruct (agent_turn_inr ss) as (a & g' & Heq). rewrite Heq in Hturn.
  injection Hturn as <-.
  destruct (step_counters a (env ss)) as [Htot Hsteps]. rewrite Hrun in Hsteps.
  split; cbn [env log].
  - rewrite length_app, Nat2Z.inj_add. cbn. lia.
  - intros i row Hrow. apply lookup_app_Some in Hrow as [Hrow|[Hlen Hrow]].
    + by apply Hnum.
    + apply list_lookup_singleton_Some in Hrow as [Hi <-]. cbn. lia.
  - intros i row Hrow. apply lookup_app_Some in Hrow as [Hrow|[Hlen Hrow]].
    + rewrite take_app_le by (apply lookup_lt_Some in Hrow; lia). by apply Hscore.
    + apply list_lookup_singleton_Some in Hrow as [Hi <-].
      rewrite take_ge by (rewrite length_app; cbn; lia).
      rewrite sum_rewards_snoc. cbn. lia.
  - rewrite sum_rewards_snoc. cbn. lia.
  - intros i row Hrow Hend. apply lookup_app_Some in Hrow as [Hrow|[Hlen Hrow]].
    + destruct (Hterm i row Hrow Hend). congruence.
    + apply list_lookup_singleton_Some in Hrow as [Hi <-]. cbn in Hend.
      rewrite length_app. cbn. split; [lia|done].
Qed.

Lemma play_tick_log_tracks max_steps ss ss' :
  log_tracks ss → play_tick max_steps ss = inr ss' → log_tracks ss'.
Proof.
  intros Hlog. unfold play_tick. destruct (running ss); [|by intros [= <-]].
  destruct (negb (is_terminal (env ss))
            && bool_decide (steps (env ss) < max_steps)) eqn:Hguard.
  - apply andb_true_iff in Hguard as [Hterm _]. apply negb_true_iff in Hterm.
    by apply agent_turn_log_tracks.
  - intros [= <-]. by destruct Hlog.
Qed.

(** X23.  The log follows the environment.  Start from a fresh session
    (no rows, no steps, score 0) or from one whose log already follows
    its environment; then after any number of runner passes, or after
    the agent button, the log has one row per step taken, row [i]
    (from 0) is numbered [i + 1] and carries as score the sum of the
    rewards of the rows up to it, the score of the environment is the
    sum of all logged rewards, and only the last row can be marked
    terminal. *)
Theorem log_follows_environment n max_steps ss ss' :
  (log ss = [] ∧ steps (env ss) = 0 ∧ total_reward (env ss) = 0) ∨ log_tracks ss →
  play n max_steps ss = inr ss' ∨ step_agent_button ss = inr ss' →
  log_tracks ss'.
Proof.
  intros Hstart Hmove.
  assert (log_tracks ss) as Hlog.
  { destruct Hstart as [(Hnil & Hsteps & Htot)|?]; [|done].
    split; rewrite ?Hnil, ?Hsteps, ?Htot; try done. }
  clear Hstart. destruct Hmove as [Hplay|Hbutton].
  - revert ss Hlog Hplay. induction n as [|n IH]; intros ss Hlog Hplay.
    { by injection Hplay as <-. }
    cbn [play] in Hplay.
    destruct (play_tick max_steps ss) as [e|ss1] eqn:Htick; [done|].
    cbn [and_then] in Hplay. eapply IH; [|done].
    by eapply play_tick_log_tracks.
  - unfold step_agent_button in Hbutton.
    destruct (negb (is_terminal (env ss))) eqn:Hterm.
    + apply negb_true_iff in Hterm. by eapply agent_turn_log_tracks.
    + by injection Hbutton as <-.
Qed.


(** X24.  The baseline agent never raises: [choose_action] always
    returns one of the six actions of [list(Action)], which lists every
    action exactly once, and its choice does not depend on the percept.
    Hence the agent button never raises either, and on a finished
    episode it leaves the session as it is. *)
Theorem agent_never_raises g pc ss :
  (∃ a g', choose_action g pc = inr (a, g') ∧ a ∈ actions) ∧
  (∀ pc', choose_action g pc' = choose_action g pc) ∧
  (∀ a, a ∈ actions) ∧ NoDup actions ∧
  (∃ ss', step_agent_button ss = inr ss') ∧
  (terminated (env ss) = true → step_agent_button ss = inr ss).
Proof.
  split_and!.
  - apply choose_action_inr.
  - done.
  - intros a. unfold actions. destruct a; rewrite !elem_of_cons; tauto.
  - unfold actions.
    repeat (apply NoDup_cons; split;
            [rewrite ?elem_of_cons, elem_of_nil; intuition discriminate|]).
    apply NoDup_nil_2.
  - unfold step_agent_button. destruct (negb (is_terminal (env ss))); [|by eexists].
    destruct (agent_turn_inr ss) as (a & g' & ->). by eexists.
  - intros Hterm. unfold step_agent_button, is_terminal. by rewrite Hterm.
Qed.


End Episode.

(** ** Concrete runs

    The general statements above, applied to environments built with
    the generator [Lcg.source] started at 7 on a 4x4 grid.  With
    probability 1/5 the gold is on (3,1) and both the wumpus and the
    only pit are on (2,4); with probability 3/2 every non-start cell is
    a pit. *)

(** Replaces a successfully created environment by its value and keeps
    the fact that it is reachable. *)
Ltac created s Hc Hr :=
  match goal with
  | |- context [create ?w ?h ?allow ?prob ?g] =>
      destruct (create w h allow prob g) as [?|s] eqn:Hc;
      [by vm_compute in Hc|];
      pose proof (reachable_create _ _ _ _ _ _ Hc) as Hr;
      vm_compute in Hc; injection Hc as Hc; subst s
  end.

(** C1, counterexample: a probability of 3/2 lies outside the unit
    interval, and yet construction does not fail. *)
Lemma create_accepts_probability_above_one :
  ¬ ((0 <= 3 # 2)%Q ∧ (3 # 2 <= 1)%Q) ∧
  ∀ e, create 4 4 true (3 # 2) (7 : Z) ≠ inl e.
Proof.
  split.
  - intros [_ Hle]. by vm_compute in Hle.
  - intros e He. by vm_compute in He.
Qed.

Lemma create_misconfigured_witness :
  create 0 4 true (1 # 5) (7 : Z) = inl IndexError ∧
  ∃ s, create 4 4 true (3 # 2) (7 : Z) = inr s ∧ Pos.mk 2 1 ∈ pits s.
Proof.
  split.
  - apply (create_misconfigured 0 4 true (1 # 5) (7 : Z)). lia.
  - destruct (create_misconfigured 4 4 true (3 # 2) (7 : Z)) as [_ Hok].
    destruct Hok as (s & Hs & _ & Hall); [lia|lia|lia|].
    exists s. split; [exact Hs|]. apply Hall.
    + by vm_compute.
    + apply elem_of_non_start_cells. simpl. split_and!; [lia..|done].
Defined.

(** C2: walking north along column 2 the agent enters (2,4), which
    holds the pit and the live wumpus at once; one penalty is paid. *)
Lemma death_penalty_once_witness :
  ∃ s0, create 4 4 true (1 # 5) (7 : Z) = inr s0 ∧
        let s := run [FORWARD; TURN_LEFT; FORWARD; FORWARD] s0 in
        agent_pos (step FORWARD s).1 ∈ pits s ∧
        agent_pos (step FORWARD s).1 = wumpus_pos s ∧
        reward (step FORWARD s).2 = -1001 ∧
        dead (step FORWARD s).1 = true ∧
        terminated (step FORWARD s).1 = true.
Proof.
  created s0 Hc Hr. eexists. split; [reflexivity|].
  apply (reachable_run [FORWARD; TURN_LEFT; FORWARD; FORWARD]) in Hr.
  set (s := run _ _) in *. cbn zeta.
  destruct (death_penalty_once FORWARD s) as [Hcheck Hforward].
  - by vm_compute.
  - left. by vm_compute.
  - destruct Hcheck as (Hrew' & _ & _); [by vm_compute|].
    destruct Hforward as (Hrew & _ & Hdead & Hterm); [by right|].
    split_and!; [by vm_compute|by vm_compute|exact Hrew|exact Hdead|exact Hterm].
Defined.

(** C3: after a climb from the start cell further actions are inert. *)
Lemma terminated_latch_witness :
  ∃ s0, create 4 4 true (1 # 5) (7 : Z) = inr s0 ∧
        let s := run [CLIMB] s0 in
        step FORWARD s = (s, get_percept s 0) ∧
        run [FORWARD; SHOOT; GRAB; CLIMB] s = s.
Proof.
  created s0 Hc Hr. eexists. split; [reflexivity|].
  set (s := run _ _). cbn zeta.
  destruct (terminated_latch FORWARD s) as (Hstep & _ & Hrun).
  - by vm_compute.
  - split; [exact Hstep|apply Hrun].
Defined.

(** C4: the gold run.  Two cells east to the gold, grab it, turn
    round, walk back, climb: reward 999. *)
Lemma climb_outcome_witness :
  ∃ s0, create 4 4 true (1 # 5) (7 : Z) = inr s0 ∧
        let s := run [FORWARD; FORWARD; GRAB; TURN_LEFT; TURN_LEFT;
                      FORWARD; FORWARD] s0 in
        has_gold s = true ∧
        terminated (step CLIMB s).1 = true ∧
        reward (step CLIMB s).2 = 999 ∧
        dead (step CLIMB s).1 = false.
Proof.
  created s0 Hc Hr. eexists. split; [reflexivity|].
  apply (reachable_run [FORWARD; FORWARD; GRAB; TURN_LEFT; TURN_LEFT;
                        FORWARD; FORWARD]) in Hr.
  set (s := run _ _) in *. cbn zeta.
  destruct (climb_outcome s Hr) as (Hiff & _ & Hrew).
  - by vm_compute.
  - assert (terminated (step CLIMB s).1 = true) as Hterm.
    { apply Hiff. split; [by vm_compute|left; by vm_compute]. }
    destruct (Hrew Hterm) as [Hreward Hdead].
    split_and!; [by vm_compute|exact Hterm|rewrite Hreward; by vm_compute|exact Hdead].
Defined.


(** C6: the first shot misses and uses the arrow up; the second one
    costs the plain -1. *)
Lemma shoot_without_arrow_witness :
  ∃ s0, create 4 4 true (1 # 5) (7 : Z) = inr s0 ∧
        let s := run [SHOOT] s0 in
        reward (step SHOOT s0).2 = -11 ∧
        reward (step SHOOT s).2 = -1 ∧
        scream (step SHOOT s).2 = false ∧
        steps (step SHOOT s).1 = 2 ∧
        total_reward (step SHOOT s).1 = -12.
Proof.
  created s0 Hc Hr. eexists. split; [reflexivity|].
  apply (reachable_run [SHOOT]) in Hr.
  set (s := run _ _) in *. cbn zeta.
  destruct (shoot_without_arrow s Hr) as (_ & Hstate & Hrew & Hscream).
  - by vm_compute.
  - by vm_compute.
  - split_and!; [by vm_compute|exact Hrew|exact Hscream|rewrite Hstate..];
      by vm_compute.
Defined.

(** C10: on the fresh 4x4 grid four turns of the loop are enough. *)
Lemma shoot_arrow_terminates_witness :
  ∃ s0, create 4 4 true (1 # 5) (7 : Z) = inr s0 ∧
        arrow_flight_fuel 4 s0 (agent_pos s0) = Some (_shoot_arrow s0).
Proof.
  created s0 Hc Hr. eexists. split; [reflexivity|].
  match goal with |- context [_shoot_arrow ?s] => set (s0 := s) end.
  destruct (shoot_arrow_terminates s0) as [Hfuel _].
  - by vm_compute.
  - exact Hfuel.
Defined.

(** The wumpus is shot from (1,4); its neighbour cell still smells
    afterwards, and no second scream is heard. *)
Example stench_after_kill :
  ∃ s0, create 4 4 true (1 # 5) (7 : Z) = inr s0 ∧
        let s := run [TURN_LEFT; FORWARD; FORWARD; FORWARD; TURN_RIGHT] s0 in
        scream (step SHOOT s).2 = true ∧
        wumpus_alive (step SHOOT s).1 = false ∧
        stench (step SHOOT s).2 = true ∧
        stench (step TURN_LEFT (step SHOOT s).1).2 = true ∧
        scream (step SHOOT (step SHOOT s).1).2 = false.
Proof.
  created s0 Hc Hr. eexists. split; [reflexivity|]. by vm_compute.
Qed.

(** The gold cell glitters before and after the gold is picked up. *)
Example glitter_after_grab :
  ∃ s0, create 4 4 true (1 # 5) (7 : Z) = inr s0 ∧
        let s := run [FORWARD; FORWARD] s0 in
        glitter (get_percept s 0) = true ∧
        has_gold (step GRAB s).1 = true ∧
        glitter (step GRAB s).2 = true ∧
        glitter (step TURN_LEFT (step GRAB s).1).2 = true.
Proof.
  created s0 Hc Hr. eexists. split; [reflexivity|]. by vm_compute.
Qed.

(** ** Concrete runs of the further properties

    The same 4x4 world as above (generator started at 7, pit
    probability 1/5: gold on (3,1), wumpus and pit on (2,4)); the agent
    of a session draws from a generator started at 8. *)

Lemma forward_pos_neighbour_witness :
  _forward_pos (Pos.mk 2 2) Direction.N ∈ Pos.neighbors_4 (Pos.mk 2 2) ∧
  _forward_pos (_forward_pos (Pos.mk 2 2) Direction.N) Direction.S = Pos.mk 2 2.
Proof.
  destruct (forward_pos_neighbour (Pos.mk 2 2) Direction.N) as (Hn & Hinj & Hback).
  pose proof (Hinj Direction.N eq_refl) as _.
  split; [exact Hn|exact Hback].
Defined.

(** The agent has walked into the only pit, on (2,4): its own cell is a
    pit, none of the cells around it is, and there is no breeze. *)
Lemma breeze_by_adjacent_pit_witness :
  ∃ s0, create 4 4 true (1 # 5) (7 : Z) = inr s0 ∧
        let s := run [FORWARD; TURN_LEFT; FORWARD; FORWARD; FORWARD] s0 in
        agent_pos s ∈ pits s ∧ breeze (get_percept s 0) = false ∧
        breeze (get_percept (run [FORWARD; TURN_LEFT; FORWARD; FORWARD] s0) 0) = true.
Proof.
  created s0 Hc Hr. eexists. split; [reflexivity|].
  set (s := run [FORWARD; TURN_LEFT; FORWARD; FORWARD; FORWARD] _).
  set (s' := run [FORWARD; TURN_LEFT; FORWARD; FORWARD] _). cbn zeta.
  split_and!.
  - by vm_compute.
  - destruct (breeze_by_adjacent_pit FORWARD s 0) as (_ & _ & Hnone).
    apply Hnone. intros [nx ny] Hn _. vm_compute in Hn.
    destruct Hn as [[-> ->]|[[-> ->]|[[-> ->]|[-> ->]]]];
      apply (bool_decide_eq_false_1 _); by vm_compute.
  - destruct (breeze_by_adjacent_pit FORWARD s' 0) as (Hiff & _ & _).
    apply Hiff. exists (Pos.mk 2 4). split_and!.
    + right. right. left. by vm_compute.
    + by vm_compute.
    + by vm_compute.
Defined.

Lemma reachable_layout_witness :
  ∃ s0, create 4 4 true (1 # 5) (7 : Z) = inr s0 ∧
        let s := run [FORWARD; TURN_LEFT] s0 in
        _in_bounds s (gold_pos s) = true ∧ gold_pos s ≠ start ∧
        2 ≤ width s * height s.
Proof.
  created s0 Hc Hr. eexists. split; [reflexivity|].
  apply (reachable_run [FORWARD; TURN_LEFT]) in Hr.
  set (s := run _ _) in *. cbn zeta.
  destruct (reachable_layout s Hr) as ((Hin & Hne) & _ & _ & _ & _ & Hcells).
  split_and!; [exact Hin|exact Hne|exact Hcells].
Defined.

Lemma flags_never_go_back_witness :
  ∃ s0, create 4 4 true (1 # 5) (7 : Z) = inr s0 ∧
        let s := run [FORWARD; FORWARD; GRAB; SHOOT] s0 in
        has_gold (run [TURN_LEFT; SHOOT; FORWARD; GRAB] s) = true ∧
        arrow_available (run [TURN_LEFT; SHOOT; FORWARD; GRAB] s) = false.
Proof.
  created s0 Hc Hr. eexists. split; [reflexivity|].
  set (s := run _ _). cbn zeta.
  destruct (flags_never_go_back [TURN_LEFT; SHOOT; FORWARD; GRAB] s)
    as (Hgold & Harrow & _).
  split; [apply Hgold|apply Harrow]; by vm_compute.
Defined.

Lemma score_is_sum_of_rewards_witness :
  ∃ s0, create 4 4 true (1 # 5) (7 : Z) = inr s0 ∧
        total_reward (run [FORWARD; SHOOT; TURN_LEFT] s0) = -13 ∧
        steps (run [FORWARD; SHOOT; TURN_LEFT] s0) = 3.
Proof.
  created s0 Hc Hr. eexists. split; [reflexivity|].
  match goal with |- context [run _ ?s] => set (s0 := s) end.
  destruct (score_is_sum_of_rewards [FORWARD; SHOOT; TURN_LEFT] s0)
    as (Htot & _ & Hsteps).
  split.
  - rewrite Htot. by vm_compute.
  - rewrite Hsteps; by vm_compute.
Defined.

Lemma reward_values_witness :
  ∃ s0, create 4 4 true (1 # 5) (7 : Z) = inr s0 ∧
        reward (step SHOOT s0).2 ∈ [0; -1; -11; 999; -1001].
Proof.
  created s0 Hc Hr. eexists. split; [reflexivity|].
  exact (reward_values SHOOT _ Hr).
Defined.

Lemma only_forward_kills_witness :
  ∃ s0, create 4 4 true (1 # 5) (7 : Z) = inr s0 ∧
        let s := run [FORWARD; TURN_LEFT; FORWARD; FORWARD] s0 in
        dead (step FORWARD s).1 = true ∧
        agent_pos (step SHOOT s).1 = agent_pos s.
Proof.
  created s0 Hc Hr. eexists. split; [reflexivity|].
  apply (reachable_run [FORWARD; TURN_LEFT; FORWARD; FORWARD]) in Hr.
  set (s := run _ _) in *. cbn zeta.
  destruct (only_forward_kills SHOOT s Hr) as (_ & _ & Hstay).
  - by vm_compute.
  - split; [by vm_compute|]. by apply Hstay.
Defined.

Lemma quiet_actions_witness :
  ∃ s0, create 4 4 true (1 # 5) (7 : Z) = inr s0 ∧
        let s := run [FORWARD; FORWARD] s0 in
        has_gold (step GRAB s).1 = true ∧
        agent_dir (step TURN_LEFT s).1 = Direction.N ∧
        reward (step TURN_RIGHT s).2 = -1.
Proof.
  created s0 Hc Hr. eexists. split; [reflexivity|].
  apply (reachable_run [FORWARD; FORWARD]) in Hr.
  set (s := run _ _) in *. cbn zeta.
  destruct (quiet_actions s Hr) as (Hleft & _ & Hgrab & _ & Hright & _).
  - by vm_compute.
  - split_and!; [rewrite Hgrab|rewrite Hleft|exact Hright]; by vm_compute.
Defined.


Lemma shoot_with_arrow_witness :
  ∃ s0, create 4 4 true (1 # 5) (7 : Z) = inr s0 ∧
        let s := run [TURN_LEFT; FORWARD; FORWARD; FORWARD; TURN_RIGHT] s0 in
        reward (step SHOOT s).2 = -11 ∧
        scream (step SHOOT s).2 = true ∧
        wumpus_alive (step SHOOT s).1 = false ∧
        arrow_available (step SHOOT s).1 = false.
Proof.
  created s0 Hc Hr. eexists. split; [reflexivity|].
  apply (reachable_run [TURN_LEFT; FORWARD; FORWARD; FORWARD; TURN_RIGHT]) in Hr.
  set (s := run _ _) in *. cbn zeta.
  destruct (shoot_with_arrow s Hr) as (_ & Hrew & Hscream & Harrow & Halive & _).
  - by vm_compute.
  - by vm_compute.
  - split_and!; [exact Hrew|rewrite Hscream|rewrite Halive|exact Harrow];
      by vm_compute.
Defined.

Lemma scream_iff_hit_witness :
  ∃ s0, create 4 4 true (1 # 5) (7 : Z) = inr s0 ∧
        let s := run [TURN_LEFT; FORWARD; FORWARD; FORWARD; TURN_RIGHT] s0 in
        scream (step SHOOT s).2 = true ∧
        scream (step SHOOT (step SHOOT s).1).2 = false.
Proof.
  created s0 Hc Hr. eexists. split; [reflexivity|].
  set (s := run _ _). cbn zeta. split.
  - destruct (scream_iff_hit SHOOT s) as [Hiff _]; [by vm_compute|].
    apply Hiff. split_and!; [done|by vm_compute..].
  - destruct (scream_iff_hit SHOOT (step SHOOT s).1) as [_ Hnone]; [by vm_compute|].
    apply Hnone. left. by vm_compute.
Defined.

Lemma episode_end_causes_witness :
  ∃ s0, create 4 4 true (1 # 5) (7 : Z) = inr s0 ∧
        let s := run [FORWARD; TURN_LEFT; FORWARD; FORWARD; FORWARD] s0 in
        dead s = true ∧ agent_pos s ∈ pits s ∧ _last_bump s = false.
Proof.
  created s0 Hc Hr. eexists. split; [reflexivity|].
  apply (reachable_run [FORWARD; TURN_LEFT; FORWARD; FORWARD; FORWARD]) in Hr.
  set (s := run _ _) in *. cbn zeta.
  destruct (episode_end_causes s Hr) as (Hbump & _ & _).
  - by vm_compute.
  - split_and!; [by vm_compute|by vm_compute|exact Hbump].
Defined.

Lemma forward_to_safe_cell_witness :
  ∃ s0, create 4 4 true (1 # 5) (7 : Z) = inr s0 ∧
        agent_pos (step FORWARD s0).1 = Pos.mk 2 1 ∧
        reward (step FORWARD s0).2 = -1 ∧
        terminated (step FORWARD s0).1 = false.
Proof.
  created s0 Hc Hr. eexists. split; [reflexivity|].
  match goal with |- context [step FORWARD ?s] => set (s0 := s) in * end.
  destruct (forward_to_safe_cell s0 Hr) as (Hstate & Hrew & _ & Hterm).
  - by vm_compute.
  - by vm_compute.
  - by vm_compute.
  - by vm_compute.
  - split_and!; [rewrite Hstate; by vm_compute|exact Hrew|exact Hterm].
Defined.

Lemma at_most_one_scream_witness :
  ∃ s0, create 4 4 true (1 # 5) (7 : Z) = inr s0 ∧
        (length (List.filter scream
                   (trace [TURN_LEFT; FORWARD; FORWARD; FORWARD; TURN_RIGHT;
                           SHOOT; SHOOT; TURN_LEFT] s0)) ≤ 1)%nat.
Proof.
  created s0 Hc Hr. eexists. split; [reflexivity|].
  match goal with |- context [trace ?l ?s] => exact (proj1 (at_most_one_scream l s Hr)) end.
Defined.

Lemma debug_board_defined_witness :
  ∃ s0, create 4 4 true (1 # 5) (7 : Z) = inr s0 ∧
        (∃ board, get_debug_board s0 = inr board) ∧
        get_debug_board (set_agent_pos (Pos.mk 0 1) s0) = inl KeyError.
Proof.
  created s0 Hc Hr. eexists. split; [reflexivity|].
  match goal with |- context [get_debug_board (set_agent_pos _ ?s)] =>
    set (s0 := s) in * end.
  split.
  - destruct (debug_board_defined s0) as (_ & _ & Hok). exact (Hok Hr).
  - destruct (debug_board_defined (set_agent_pos (Pos.mk 0 1) s0)) as (_ & Herr & _).
    apply Herr. right. right. right. by vm_compute.
Defined.

Lemma debug_board_contents_witness :
  ∃ s0, create 4 4 true (1 # 5) (7 : Z) = inr s0 ∧
  ∃ board,
    get_debug_board s0 = inr board ∧
    is_Some (board !! Pos.mk 4 4) ∧ ¬ is_Some (board !! Pos.mk 5 4) ∧
    (∀ cell, board !! Pos.mk 2 4 = Some cell →
       "P" ∈ cell ∧ "W" ∈ cell ∧ "A" ∉ cell).
Proof.
  created s0 Hc Hr. eexists. split; [reflexivity|].
  match goal with |- context [get_debug_board ?s] => set (s0 := s) in * end.
  destruct (get_debug_board s0) as [e|board] eqn:Hb; [by vm_compute in Hb|].
  exists board. split; [reflexivity|].
  destruct (debug_board_contents s0 board Hb) as [Hkeys Hcells].
  split_and!.
  - apply Hkeys. by vm_compute.
  - rewrite Hkeys. by vm_compute.
  - intros cell Hcell.
    destruct (Hcells _ _ Hcell) as (HA & HP & _ & HW & _).
    split_and!.
    + apply HP. by vm_compute.
    + apply HW. by vm_compute.
    + rewrite HA. by vm_compute.
Defined.

Lemma render_board_defined_witness :
  ∃ s0, create 4 4 true (1 # 5) (7 : Z) = inr s0 ∧
        (∃ html, render_board_html s0 true = inr html) ∧
        (∃ html, render_board_html (run [FORWARD; FORWARD] s0) false = inr html).
Proof.
  created s0 Hc Hr. eexists. split; [reflexivity|].
  match goal with |- context [render_board_html ?s true] => set (s0 := s) in * end.
  split.
  - destruct (render_board_defined s0 true) as [_ Hok]. exact (Hok Hr).
  - destruct (render_board_defined (run [FORWARD; FORWARD] s0) false) as [_ Hok].
    apply Hok. by apply reachable_run.
Defined.

(** The same grid once with one pit and once with a pit on every
    non-start cell: the agent view is the same page. *)
Lemma hidden_view_hides_witness :
  ∃ s0 s1,
    create 4 4 true (1 # 5) (7 : Z) = inr s0 ∧
    create 4 4 true (3 # 2) (7 : Z) = inr s1 ∧
    pits s1 ≠ pits s0 ∧
    render_board_html s1 false = render_board_html s0 false.
Proof.
  destruct (create 4 4 true (1 # 5) (7 : Z)) as [?|s0] eqn:Hc0;
    [by vm_compute in Hc0|].
  destruct (create 4 4 true (3 # 2) (7 : Z)) as [?|s1] eqn:Hc1;
    [by vm_compute in Hc1|].
  pose proof (reachable_create _ _ _ _ _ _ Hc0) as Hr0.
  pose proof (reachable_create _ _ _ _ _ _ Hc1) as Hr1.
  exists s0, s1. split; [reflexivity|]. split; [reflexivity|].
  vm_compute in Hc0, Hc1. injection Hc0 as Hc0. injection Hc1 as Hc1.
  split.
  - intros Heq. assert (Pos.mk 2 1 ∈ pits s0) as Hin.
    { rewrite <- Heq, <- Hc1. by vm_compute. }
    rewrite <- Hc0 in Hin. by vm_compute in Hin.
  - apply (hidden_view_hides s0 s1).
    + by rewrite <- Hc0, <- Hc1.
    + by rewrite <- Hc0, <- Hc1.
    + by rewrite <- Hc0, <- Hc1.
    + by rewrite <- Hc0, <- Hc1.
    + destruct (get_debug_board_inside s0 (reachable_all_in_grid s0 Hr0))
        as (board & Hb & _). by exists board.
    + destruct (get_debug_board_inside s1 (reachable_all_in_grid s1 Hr1))
        as (board & Hb & _). by exists board.
Defined.

Lemma runner_stops_witness :
  ∃ s0, create 4 4 true (1 # 5) (7 : Z) = inr s0 ∧
        ∃ ss', play 6 5 {| env := s0; agent := 8; log := []; running := true |}
                 = inr ss' ∧
               running ss' = false ∧ steps (env ss') ≤ 5 ∧ reachable (env ss').
Proof.
  created s0 Hc Hr. eexists. split; [reflexivity|].
  match goal with |- context [mkSession ?s _ _ _] => set (s0 := s) in * end.
  destruct (runner_stops 5 {| env := s0; agent := 8; log := []; running := true |})
    as (ss' & Hplay & Hoff & Hbound & Hreach & _).
  exists ss'. split_and!; [exact Hplay|exact Hoff|exact Hbound|exact (Hreach Hr)].
Defined.

Lemma log_follows_environment_witness :
  ∃ s0, create 4 4 true (1 # 5) (7 : Z) = inr s0 ∧
        ∃ ss', play 3 5 {| env := s0; agent := 8; log := []; running := true |}
                 = inr ss' ∧
               log_tracks ss'.
Proof.
  created s0 Hc Hr. eexists. split; [reflexivity|].
  match goal with |- context [mkSession ?s _ _ _] => set (s0 := s) in * end.
  destruct (play 3 5 {| env := s0; agent := 8; log := []; running := true |})
    as [e|ss'] eqn:Hplay; [by vm_compute in Hplay|].
  exists ss'. split; [reflexivity|].
  apply (log_follows_environment 3 5
           {| env := s0; agent := 8; log := []; running := true |} ss').
  - left. by vm_compute.
  - by left.
Defined.

Lemma agent_never_raises_witness :
  ∃ s0, create 4 4 true (1 # 5) (7 : Z) = inr s0 ∧
        (∃ a g', choose_action (8 : Z) (get_percept s0 0) = inr (a, g')) ∧
        let ss := {| env := run [CLIMB] s0; agent := 8; log := []; running := false |} in
        step_agent_button ss = inr ss.
Proof.
  created s0 Hc Hr. eexists. split; [reflexivity|].
  match goal with |- context [get_percept ?s 0] => set (s0 := s) in * end.
  cbn zeta.
  destruct (agent_never_raises (8 : Z) (get_percept s0 0)
              {| env := run [CLIMB] s0; agent := 8; log := []; running := false |})
    as ((a & g' & Hchoice & _) & _ & _ & _ & _ & Hidle).
  split; [by exists a, g'|]. apply Hidle. by vm_compute.
Defined.
